(** * moose-notebooks: equilibrium potentials and the Hodgkin-Huxley prototype

    A shallow embedding of the two notebooks of the repository:

    - [Resting_membrane_potential.ipynb]: the Nernst verification cell
      ([ek = - R * T/(z * F) * np.log(Cin/Cout)]) and the function [GHK_V];
    - the synapse notebook: the constants [EREST_ACT], [ENa], [EK], [DIA],
      the function [get_hh_proto] with its gate rate expressions and table
      parameters, and the synapse parameters.

    Numbers.  Python floats are modelled by the real numbers of the Standard
    Library: finite floats are reals, rounding and overflow are not
    modelled.  What Python and NumPy do at the edges of the real operations is
    kept: the division of two Python floats raises [ZeroDivisionError] when
    the divisor is zero, [np.log] returns [-inf] at zero and [nan] below
    zero, and NumPy products propagate infinities and [nan]. *)

From stdpp Require Import gmap strings list.
From Stdlib Require Import Reals Lra Lia ZArith QArith Qreals Qround.

(** ** Part I: definitions *)

(** *** Python and NumPy numbers *)

(** The only exception the arithmetic of the notebooks can raise. *)
Inductive exn : Set :=
  | ZeroDivisionError.

(** A [np.float64]: a finite value, an infinity or not-a-number. *)
Inductive float64 : Type :=
  | Fin (r : R)
  | PInf
  | NInf
  | NaN.

(** Outcome of evaluating a Python expression. *)
Definition py (A : Type) : Type := (exn + A)%type.

Definition ret {A : Type} (a : A) : py A := inr a.

Definition raise {A : Type} (e : exn) : py A := inl e.

Definition bind {A B : Type} (m : py A) (k : A -> py B) : py B :=
  match m with
  | inl e => inl e
  | inr a => k a
  end.

Notation "x <-- m ;; k" := (bind m (fun x => k))
  (at level 100, m at next level, right associativity).

Definition raises {A : Type} (m : py A) : Prop :=
  match m with
  | inl _ => True
  | inr _ => False
  end.

(** [a / b] on Python floats. *)
Definition truediv (a b : R) : py R :=
  if Req_dec_T b 0 then raise ZeroDivisionError else ret (a / b)%R.

(** [np.log x] on a finite argument: a warning, not an exception, at [x <= 0]. *)
Definition np_log (x : R) : float64 :=
  match total_order_T x 0 with
  | inleft (left _) => NaN
  | inleft (right _) => NInf
  | inright _ => Fin (ln x)
  end.

(** The sign rule of a product with an infinity: [0 * inf] is [nan]. *)
Definition scale_inf (a : R) (pos : bool) : float64 :=
  match total_order_T a 0 with
  | inleft (left _) => if pos then NInf else PInf
  | inleft (right _) => NaN
  | inright _ => if pos then PInf else NInf
  end.

(** [a * x] for a Python float [a] and a [np.float64] [x]. *)
Definition np_mul (a : R) (x : float64) : float64 :=
  match x with
  | Fin r => Fin (a * r)%R
  | PInf => scale_inf a true
  | NInf => scale_inf a false
  | NaN => NaN
  end.

(** *** Resting_membrane_potential.ipynb *)

(** The notebook's global [R = 8.314] (renamed: [R] is the type of reals). *)
Definition R_gas : R := 8.314%R.

(** The notebook's global [F = 96485.33]. *)
Definition F : R := 96485.33%R.

(** The verification cell [ek = - R * T/(z * F) * np.log(Cin/Cout)] as a
    function of the four variables it reads.  Python parses the right-hand
    side as [(((-R) * T) / (z * F)) * np.log(Cin / Cout)] and evaluates the
    left factor first. *)
Definition nernst (z : Z) (Cin Cout T : R) : py float64 :=
  k <-- truediv (- R_gas * T)%R (IZR z * F)%R ;;
  q <-- truediv Cin Cout ;;
  ret (np_mul k (np_log q)).

(** [GHK_V] of the notebook. *)
Definition GHK_V (K_in K_out Na_in Na_out Cl_in Cl_out P_K P_Na P_Cl T : R)
  : py float64 :=
  let num := (P_K * K_out + P_Na * Na_out + P_Cl * Cl_in)%R in
  let den := (P_K * K_in + P_Na * Na_in + P_Cl * Cl_out)%R in
  k <-- truediv (R_gas * T)%R F ;;
  q <-- truediv num den ;;
  ret (np_mul k (np_log q)).

(** *** Rational bounds on the exponential

    An executable lower bound of [exp y] for a rational [y]:
    [(1 + y / 2^k)^(2^k)], computed by [k] squarings, each rounded down to
    a multiple of [1 / precision]. *)

Definition precision : positive := 2 ^ 64.

Definition round_down (q : Q) : Q :=
  Qfloor (q * inject_Z (Z.pos precision)) # precision.

Fixpoint sq_iter (k : nat) (q : Q) : Q :=
  match k with
  | O => q
  | S k' => sq_iter k' (round_down (q * q))
  end.

Definition exp_lower (k : nat) (y : Q) : Q :=
  sq_iter k (1 + y / inject_Z (2 ^ Z.of_nat k)).

(** *** The synapse notebook: constants and gate rate expressions *)

Definition EREST_ACT : R := (-70e-3)%R.

Definition ENa : R := (115e-3 + EREST_ACT)%R.

Definition EK : R := (-12e-3 + EREST_ACT)%R.

Definition DIA : R := 30e-6%R.

(** The syntax of the rate expressions that [get_hh_proto] hands to the gates
    as strings: numbers, the voltage [v], the four arithmetic operations,
    unary minus and [exp]. *)
Inductive expr : Type :=
  | Num (c : R)
  | V
  | Neg (a : expr)
  | Add (a b : expr)
  | Sub (a b : expr)
  | Mul (a b : expr)
  | Div (a b : expr)
  | Exp (a : expr).

Declare Scope expr_scope.
Delimit Scope expr_scope with expr.
Bind Scope expr_scope with expr.
Notation "a + b" := (Add a b) : expr_scope.
Notation "a - b" := (Sub a b) : expr_scope.
Notation "a * b" := (Mul a b) : expr_scope.
Notation "a / b" := (Div a b) : expr_scope.
Notation "- a" := (Neg a) : expr_scope.

(** The value of an expression at the voltage [v]; [None] once a division has
    a zero divisor (the evaluator then leaves a non-finite number). *)
Fixpoint eval (e : expr) (v : R) : option R :=
  match e with
  | Num c => Some c
  | V => Some v
  | Neg a => x ← eval a v; Some (- x)%R
  | Add a b => x ← eval a v; y ← eval b v; Some (x + y)%R
  | Sub a b => x ← eval a v; y ← eval b v; Some (x - y)%R
  | Mul a b => x ← eval a v; y ← eval b v; Some (x * y)%R
  | Div a b =>
      x ← eval a v; y ← eval b v;
      if Req_dec_T y 0 then None else Some (x / y)%R
  | Exp a => x ← eval a v; Some (exp x)
  end.

(** [(v - ({EREST_ACT}))], the shift every expression starts from; the
    f-strings put the value of [EREST_ACT] in its place (written [E] in the
    quotations below). *)
Definition shifted : expr := (V - Num EREST_ACT)%expr.

(** ['1e3 * 0.1 * (25 - 1e3 * (v - (E)))/(exp((25 - 1e3 * (v - (E)))/10) - 1)'] *)
Definition m_alphaExpr : expr :=
  (Num 1e3 * Num 0.1 * (Num 25 - Num 1e3 * shifted)
   / (Exp ((Num 25 - Num 1e3 * shifted) / Num 10) - Num 1))%expr.

(** ['1e3 * 4 * exp(- 1e3 * (v - (E))/ 18)'] *)
Definition m_betaExpr : expr :=
  (Num 1e3 * Num 4 * Exp (- Num 1e3 * shifted / Num 18))%expr.

(** ['1e3 * 0.07 * exp(- 1e3 * (v - (E))/ 20)'] *)
Definition h_alphaExpr : expr :=
  (Num 1e3 * Num 0.07 * Exp (- Num 1e3 * shifted / Num 20))%expr.

(** ['1e3 / (exp((30 - 1e3 * (v - (E))) / 10) + 1)'] *)
Definition h_betaExpr : expr :=
  (Num 1e3 / (Exp ((Num 30 - Num 1e3 * shifted) / Num 10) + Num 1))%expr.

(** ['1e3 * 0.01 * (10 - 1e3 * (v - (E))) / (exp((10 - 1e3 * (v - (E)))/10) - 1)'] *)
Definition n_alphaExpr : expr :=
  (Num 1e3 * Num 0.01 * (Num 10 - Num 1e3 * shifted)
   / (Exp ((Num 10 - Num 1e3 * shifted) / Num 10) - Num 1))%expr.

(** ['1e3 * 0.125 * exp(-1e3 * (v - (E)) / 80)'] *)
Definition n_betaExpr : expr :=
  (Num 1e3 * Num 0.125 * Exp (- Num 1e3 * shifted / Num 80))%expr.

(** The table parameters [get_hh_proto] gives to the three gates. *)
Definition gate_min : R := (-110e-3)%R.

Definition gate_max : R := 50e-3%R.

Definition gate_divs : nat := 1000.

(** Modelled from the spec: the sampling rule of [fillFromExpr], a method of
    the MOOSE engine of which the notebook holds only the call.  SS4.2: the
    table holds the rates at [divisions + 1] evenly spaced voltages spanning
    [[v_min, v_max]]. *)
Definition sample_voltage (v_min v_max : R) (divisions i : nat) : R :=
  (v_min + INR i * ((v_max - v_min) / INR divisions))%R.

(** Modelled from the spec: the rate curve of one expression, its value at
    each sample voltage ([None] where the expression divides by zero). *)
Definition tabulate (e : expr) (v_min v_max : R) (divisions : nat)
  : list (option R) :=
  map (fun i => eval e (sample_voltage v_min v_max divisions i))
      (seq 0 (S divisions)).

(** *** Spike detection (spec SS4.4)

    [moose.SpikeGen] belongs to the MOOSE engine; the notebook creates one and
    connects it to the voltage of neuron A.  Sampled voltages are finite
    floats, hence rationals, and the detector only compares them. *)

(** Modelled from the spec: the two states of a SpikeDetector. *)
Inductive detector_state : Set :=
  | BELOW_THRESHOLD
  | ABOVE_THRESHOLD.

(** Modelled from the spec: a SpikeDetector with its threshold, the delay
    added to the time stamp of an event, and its current state. *)
Record SpikeDetector : Set := {
  threshold : Q;
  delay : Q;
  state : detector_state
}.

Definition with_state (d : SpikeDetector) (st : detector_state) : SpikeDetector :=
  {| threshold := threshold d; delay := delay d; state := st |}.

(** Modelled from the spec: one sample [v] taken at time [now].  BELOW to
    ABOVE when the voltage crosses the threshold strictly upward, with one
    event stamped [now + delay]; ABOVE to BELOW when the voltage falls back
    below the threshold, with no event; no transition otherwise. *)
Definition sample (d : SpikeDetector) (now v : Q) : SpikeDetector * list Q :=
  match state d with
  | BELOW_THRESHOLD =>
      if Qlt_le_dec (threshold d) v
      then (with_state d ABOVE_THRESHOLD, [now + delay d])
      else (d, [])
  | ABOVE_THRESHOLD =>
      if Qlt_le_dec v (threshold d)
      then (with_state d BELOW_THRESHOLD, [])
      else (d, [])
  end.

(** Modelled from the spec: the detector samples a voltage trace once per
    step of length [dt], starting at time [now]; the events come out in
    order. *)
Fixpoint run (d : SpikeDetector) (now dt : Q) (trace : list Q)
  : SpikeDetector * list Q :=
  match trace with
  | [] => (d, [])
  | v :: rest =>
      let '(d1, ev) := sample d now v in
      let '(d2, evs) := run d1 (now + dt) dt rest in
      (d2, ev ++ evs)
  end.

(** The side of the threshold a sample is on; a sample equal to the threshold
    is on neither. *)
Definition side_of (thr v : Q) : option bool :=
  if Qlt_le_dec thr v then Some true
  else if Qlt_le_dec v thr then Some false
  else None.

(** Number of changes from below ([false]) to above ([true]) in a sequence
    of sides that follows the side [prev]. *)
Fixpoint rises (prev : bool) (sides : list bool) : nat :=
  match sides with
  | [] => 0
  | b :: rest => (if negb prev && b then 1 else 0) + rises b rest
  end.

(** The upward crossings of a trace, read off the trace alone: the changes
    from below to above among its samples that are off the threshold, for a
    detector that starts on the side [above]. *)
Definition upward_crossings (thr : Q) (above : bool) (trace : list Q) : nat :=
  rises above (omap (side_of thr) trace).

Definition is_above (st : detector_state) : bool :=
  match st with
  | BELOW_THRESHOLD => false
  | ABOVE_THRESHOLD => true
  end.

(** A trace sampled [S k] times as fast: every sample is read [S k] times. *)
Definition oversample (k : nat) (trace : list Q) : list Q :=
  flat_map (fun v => repeat v (S k)) trace.

(** *** Gate interpolation (spec SS4.2)

    The interpolation of the gate tables happens inside the MOOSE engine (the
    notebook sets [min], [max], [divs] and [useInterpolation]).  Table
    entries are finite floats, hence rationals; the arithmetic of the
    interpolation is modelled exactly, without rounding. *)

(** Modelled from the spec: the one error of the spec's taxonomy (SS7). *)
Inductive spec_error : Set :=
  | DomainError.

(** Modelled from the spec: an InterpolationTable, both rate curves sampled at
    [divisions + 1] voltages. *)
Record InterpolationTable : Set := {
  v_min : Q;
  v_max : Q;
  divisions : nat;
  alpha_tab : list Q;
  beta_tab : list Q
}.

(** Modelled from the spec: the distance of two neighbouring samples. *)
Definition bin_width (v_min v_max : Q) (divisions : nat) : Q :=
  (v_max - v_min) / inject_Z (Z.of_nat divisions).

(** Modelled from the spec: [build_table] samples [alpha_fn] and [beta_fn] at
    [divisions + 1] evenly spaced voltages spanning [[v_min, v_max]] and
    fails with [DomainError] if [divisions < 1] or [v_max <= v_min]. *)
Definition build_table (alpha_fn beta_fn : Q -> Q) (v_min v_max : Q)
  (divisions : nat) : spec_error + InterpolationTable :=
  if (divisions <? 1)%nat || Qle_bool v_max v_min then inl DomainError
  else
    let at_sample (f : Q -> Q) (i : nat) :=
      f (v_min + inject_Z (Z.of_nat i) * bin_width v_min v_max divisions) in
    inr {| v_min := v_min; v_max := v_max; divisions := divisions;
           alpha_tab := map (at_sample alpha_fn) (seq 0 (S divisions));
           beta_tab := map (at_sample beta_fn) (seq 0 (S divisions)) |}.

(** What [build_table] guarantees of a table. *)
Definition well_formed (tab : InterpolationTable) : bool :=
  (1 <=? divisions tab)%nat
  && negb (Qle_bool (v_max tab) (v_min tab))
  && (length (alpha_tab tab) =? S (divisions tab))%nat
  && (length (beta_tab tab) =? S (divisions tab))%nat.

(** Modelled from the spec: the voltage clamped to [[lo, hi]]. *)
Definition clamp (lo hi v : Q) : Q :=
  if Qlt_le_dec v lo then lo
  else if Qlt_le_dec hi v then hi
  else v.

(** Modelled from the spec: linear interpolation between the two samples that
    bound the bin [bin], at the fraction [frac] of the bin. *)
Definition lerp (samples : list Q) (bin : nat) (frac : Q) : option Q :=
  y0 ← samples !! bin;
  y1 ← samples !! S bin;
  Some (y0 + frac * (y1 - y0)).

(** Modelled from the spec: [interpolate] clamps the voltage to
    [[v_min, v_max]], then interpolates linearly between the two nearest
    samples.  [None] stands for a failure (an index outside the table). *)
Definition interpolate (tab : InterpolationTable) (v : Q) : option (Q * Q) :=
  let vc := clamp (v_min tab) (v_max tab) v in
  let pos := (vc - v_min tab) / bin_width (v_min tab) (v_max tab) (divisions tab) in
  let bin := Nat.min (Z.to_nat (Qfloor pos)) (divisions tab - 1) in
  let frac := pos - inject_Z (Z.of_nat bin) in
  a ← lerp (alpha_tab tab) bin frac;
  b ← lerp (beta_tab tab) bin frac;
  Some (a, b).

(** The pair of samples stored at index [i]. *)
Definition sample_at (tab : InterpolationTable) (i : nat) : option (Q * Q) :=
  a ← alpha_tab tab !! i;
  b ← beta_tab tab !! i;
  Some (a, b).

(** Equality of two pairs of rationals as numbers. *)
Definition same_rates (x y : Q * Q) : Prop :=
  fst x == fst y /\ snd x == snd y.

(** A table over the range the notebook gives its gates ([min = -110e-3],
    [max = 50e-3], [divs = 1000]), holding a rising and a falling ramp. *)
Definition ramp_table : InterpolationTable :=
  {| v_min := -110 # 1000;
     v_max := 50 # 1000;
     divisions := 1000;
     alpha_tab := map (fun i => inject_Z (Z.of_nat i)) (seq 0 1001);
     beta_tab := map (fun i => inject_Z (Z.of_nat (1000 - i))) (seq 0 1001) |}.

(** *** The double-exponential synapse (spec SS4.4)

    [moose.SynChan] belongs to the MOOSE engine; the notebook sets its
    reversal potential, maximal conductance and the two time constants. *)

(** [synchan.tau1 = 1e-3] and [synchan.tau2 = 5e-3] of the notebook. *)
Definition synchan_tau1 : R := 1e-3%R.

Definition synchan_tau2 : R := 5e-3%R.

(** Modelled from the spec: the kernel shape [e^(-t/tau1) - e^(-t/tau2)]. *)
Definition kernel (tau1 tau2 t : R) : R :=
  (exp (- t / tau1) - exp (- t / tau2))%R.

(** Modelled from the spec:
    [t_peak = (tau1 * tau2) / (tau2 - tau1) * ln (tau2 / tau1)]. *)
Definition t_peak (tau1 tau2 : R) : R :=
  ((tau1 * tau2) / (tau2 - tau1) * ln (tau2 / tau1))%R.

(** Modelled from the spec: the kernel setup, which fails with [DomainError]
    if [tau1 == tau2] and otherwise chooses
    [normalization = 1 / (e^(-t_peak/tau1) - e^(-t_peak/tau2))]. *)
Definition normalization (tau1 tau2 : R) : spec_error + R :=
  if Req_dec_T tau1 tau2 then inl DomainError
  else inr (1 / (exp (- t_peak tau1 tau2 / tau1)
                 - exp (- t_peak tau1 tau2 / tau2)))%R.

(** *** The MOOSE object tree and [get_hh_proto]

    The notebook reaches the engine through calls that read and change one
    shared tree of elements, addressed by path: a Python reference to an
    element is its path, and two references to one path are the same object.
    The calls are modelled as functions on that tree; [None] stands for a call
    that raises. *)

(** The value of a field. *)
Inductive value : Type :=
  | VNum (x : R)
  | VInt (n : nat)
  | VBool (b : bool)
  | VExpr (e : expr)
  | VTable (t : list (option R)).

(** An element: its class and the fields that have been assigned; the other
    fields hold the defaults of the engine. *)
Record element : Type := {
  class : string;
  fields : gmap string value
}.

(** The tree: the elements by path, and the messages set up by
    [moose.connect] as (source, source field, destination, destination
    field). *)
Record store : Type := {
  elements : gmap string element;
  messages : list (string * string * string * string)
}.

Definition moose (A : Type) : Type := store -> option (A * store).

Definition mreturn {A : Type} (a : A) : moose A := fun s => Some (a, s).

Definition mthen {A B : Type} (m : moose A) (k : A -> moose B) : moose B :=
  fun s =>
    match m s with
    | Some (a, s') => k a s'
    | None => None
    end.

Notation "x <~ m ;; k" := (mthen m (fun x => k))
  (at level 100, m at next level, right associativity).

Notation "m ;;; k" := (mthen m (fun _ => k))
  (at level 100, right associativity).

Definition has (path : string) (s : store) : Prop :=
  is_Some (elements s !! path).

(** [moose.exists(path)]. *)
Definition moose_exists (path : string) : moose bool :=
  fun s => Some (bool_decide (has path s), s).

(** [moose.element(path)]: the element at [path], which must exist. *)
Definition moose_element (path : string) : moose string :=
  fun s =>
    match elements s !! path with
    | Some _ => Some (path, s)
    | None => None
    end.

(** A constructor [moose.Class(path)]: creates the element, or refers to the
    one that is already there (as [moose.Neutral('/library')] must, being
    called at every call of [get_hh_proto]). *)
Definition create (cls path : string) : moose string :=
  fun s =>
    match elements s !! path with
    | Some _ => Some (path, s)
    | None =>
        Some (path,
              {| elements := <[path := {| class := cls; fields := ∅ |}]> (elements s);
                 messages := messages s |})
    end.

(** [element.field = v]. *)
Definition setfield (path field : string) (v : value) : moose unit :=
  fun s =>
    match elements s !! path with
    | Some e =>
        Some (tt,
              {| elements :=
                   <[path := {| class := class e;
                                fields := <[field := v]> (fields e) |}]>
                     (elements s);
                 messages := messages s |})
    | None => None
    end.

(** [chan.Xpower = n] and [chan.Ypower = n]: sets the power and, as the
    notebook notes, instantiates the gate element [chan/gateX] or
    [chan/gateY]. *)
Definition set_power (chan power gate : string) (n : R) : moose unit :=
  setfield chan power (VNum n) ;;;
  _ <~ create "HHGate" (chan +:+ "/" +:+ gate) ;;
  mreturn tt.

(** [moose.connect(src, srcfield, dest, destfield)]. *)
Definition connect (src srcfield dest destfield : string) : moose unit :=
  fun s =>
    Some (tt,
          {| elements := elements s;
             messages := messages s ++ [(src, srcfield, dest, destfield)] |}).

Definition field_expr (e : element) (field : string) : expr :=
  match fields e !! field with
  | Some (VExpr x) => x
  | _ => Num 0
  end.

Definition field_num (e : element) (field : string) : R :=
  match fields e !! field with
  | Some (VNum x) => x
  | _ => 0%R
  end.

Definition field_int (e : element) (field : string) : nat :=
  match fields e !! field with
  | Some (VInt n) => n
  | _ => 0%nat
  end.

(** Modelled from the spec: [gate.fillFromExpr()], a method of the MOOSE
    engine: both rate curves are tabulated from the gate's expressions over
    the gate's range (SS4.2).  A field the notebook has not assigned reads as
    a placeholder. *)
Definition fillFromExpr (gate : string) : moose unit :=
  fun s =>
    match elements s !! gate with
    | Some e =>
        let table (field : string) :=
          VTable (tabulate (field_expr e field) (field_num e "min")
                    (field_num e "max") (field_int e "divs")) in
        (setfield gate "tableA" (table "alphaExpr") ;;;
         setfield gate "tableB" (table "betaExpr")) s
    | None => None
    end.

(** [for x in xs: body(x)]. *)
Fixpoint for_each {A : Type} (xs : list A) (body : A -> moose unit) : moose unit :=
  match xs with
  | [] => mreturn tt
  | x :: rest => body x ;;; for_each rest body
  end.

(** [get_hh_proto] of the notebook.  The one division of the body,
    [1 / (10 * 0.3 * sarea)], has a divisor that is a positive constant
    ([Rm_divisor_positive] below), so it is written as a division of reals. *)
Definition get_hh_proto : moose string :=
  lib <~ create "Neutral" "/library" ;;
  let comp_path := lib +:+ "/comp" in
  found <~ moose_exists comp_path ;;
  if (found : bool) then moose_element comp_path
  else
    proto_comp <~ create "Compartment" comp_path ;;
    let sarea := (PI * DIA * DIA)%R in
    setfield proto_comp "Em" (VNum (EREST_ACT + 10.613e-3)) ;;;
    setfield proto_comp "initVm" (VNum EREST_ACT) ;;;
    setfield proto_comp "Cm" (VNum (1e-2 * sarea)) ;;;
    setfield proto_comp "Rm" (VNum (1 / (10 * 0.3 * sarea))) ;;;
    na_chan <~ create "HHChannel" (proto_comp +:+ "/Na") ;;
    k_chan <~ create "HHChannel" (proto_comp +:+ "/K") ;;
    connect na_chan "channel" proto_comp "channel" ;;;
    connect k_chan "channel" proto_comp "channel" ;;;
    setfield na_chan "Ek" (VNum ENa) ;;;
    setfield na_chan "Gbar" (VNum (10 * 120 * sarea)) ;;;
    setfield k_chan "Ek" (VNum EK) ;;;
    setfield k_chan "Gbar" (VNum (10 * 36 * sarea)) ;;;
    set_power na_chan "Xpower" "gateX" 3 ;;;
    set_power na_chan "Ypower" "gateY" 1 ;;;
    m_gate <~ moose_element (na_chan +:+ "/gateX") ;;
    h_gate <~ moose_element (na_chan +:+ "/gateY") ;;
    set_power k_chan "Xpower" "gateX" 4 ;;;
    n_gate <~ moose_element (k_chan +:+ "/gateX") ;;
    setfield m_gate "alphaExpr" (VExpr m_alphaExpr) ;;;
    setfield m_gate "betaExpr" (VExpr m_betaExpr) ;;;
    setfield h_gate "alphaExpr" (VExpr h_alphaExpr) ;;;
    setfield h_gate "betaExpr" (VExpr h_betaExpr) ;;;
    setfield n_gate "alphaExpr" (VExpr n_alphaExpr) ;;;
    setfield n_gate "betaExpr" (VExpr n_betaExpr) ;;;
    for_each [m_gate; h_gate; n_gate] (fun gate =>
      setfield gate "min" (VNum gate_min) ;;;
      setfield gate "max" (VNum gate_max) ;;;
      setfield gate "divs" (VInt gate_divs) ;;;
      setfield gate "useInterpolation" (VBool true) ;;;
      fillFromExpr gate) ;;;
    mreturn proto_comp.

(** [n] calls of [get_hh_proto] in a row, with what each returned. *)
Fixpoint calls (n : nat) : moose (list string) :=
  match n with
  | O => mreturn []
  | S n' =>
      r <~ get_hh_proto ;;
      rs <~ calls n' ;;
      mreturn (r :: rs)
  end.

(** The tree before the notebook has created anything. *)
Definition empty_tree : store := {| elements := ∅; messages := [] |}.

Definition table_length (v : value) : nat :=
  match v with
  | VTable t => length t
  | _ => 0%nat
  end.

(** [wp m Q s]: from the tree [s] the call [m] returns, with a result and a
    tree that satisfy [Q]. *)
Definition wp {A : Type} (m : moose A) (Q : A -> store -> Prop) (s : store) : Prop :=
  exists (a : A) (s' : store), m s = Some (a, s') /\ Q a s'.

(** Every element of [s] is still there in [s']. *)
Definition grows (s s' : store) : Prop :=
  forall path : string, has path s -> has path s'.

(** [field_is path field v s]: the element at [path] has [field] assigned,
    with value [v]. *)
Definition field_is (path field : string) (v : value) (s : store) : Prop :=
  exists e : element, elements s !! path = Some e /\ fields e !! field = Some v.






(** A tree in which something else already sits at the prototype's path. *)
Definition stale_tree : store :=
  {| elements := {["/library/comp" := {| class := "Neutral"; fields := ∅ |}]};
     messages := [] |}.

(** ** Part II: theorems *)

Section ExpBounds.

Local Open Scope R_scope.

Lemma round_down_le (q : Q) : Q2R (round_down q) <= Q2R q.
Proof.
  unfold round_down. generalize precision. intros c.
  assert (Hc : 0 < IZR (Z.pos c)) by (apply IZR_lt; lia).
  pose proof (Qle_Rle _ _ (Qfloor_le (q * inject_Z (Z.pos c)))) as H.
  rewrite Q2R_mult in H.
  unfold Q2R at 1. cbn [Qnum Qden].
  unfold Q2R at 1 3 in H. cbn [Qnum Qden inject_Z] in H.
  rewrite Rinv_1, !Rmult_1_r in H.
  apply Rmult_le_reg_r with (IZR (Z.pos c)); [exact Hc |].
  rewrite Rmult_assoc, Rinv_l by lra. lra.
Qed.

Lemma round_down_nonneg (q : Q) : 0 <= Q2R q -> 0 <= Q2R (round_down q).
Proof.
  intros Hq. unfold round_down. generalize precision. intros c.
  assert (Hc : 0 < IZR (Z.pos c)) by (apply IZR_lt; lia).
  unfold Q2R at 1. cbn [Qnum Qden].
  apply Rmult_le_pos; [| left; now apply Rinv_0_lt_compat].
  apply IZR_le. change 0%Z with (Qfloor 0).
  apply Qfloor_resp_le. apply Rle_Qle.
  rewrite Q2R_mult, RMicromega.Q2R_0.
  apply Rmult_le_pos; [exact Hq |].
  unfold Q2R; cbn [Qnum Qden inject_Z]. rewrite Rinv_1. lra.
Qed.

(** Squaring [k] times a lower bound of [exp x] bounds [exp (2^k * x)]. *)
Lemma sq_iter_sound (k : nat) : forall (q : Q) (x : R),
  0 <= Q2R q -> Q2R q <= exp x -> Q2R (sq_iter k q) <= exp (2 ^ k * x).
Proof.
  induction k as [| k IH]; intros q x Hq Hle; cbn [sq_iter pow].
  - now rewrite Rmult_1_l.
  - replace (2 * 2 ^ k * x) with (2 ^ k * (x + x)) by ring.
    apply IH.
    + apply round_down_nonneg. rewrite Q2R_mult. now apply Rmult_le_pos.
    + eapply Rle_trans; [apply round_down_le |].
      rewrite Q2R_mult, exp_plus. now apply Rmult_le_compat.
Qed.

Lemma exp_lower_sound (k : nat) (y : Q) :
  (0 <= 1 + y / inject_Z (2 ^ Z.of_nat k))%Q ->
  Q2R (exp_lower k y) <= exp (Q2R y).
Proof.
  intros Hq. unfold exp_lower.
  assert (Hp : 0 < 2 ^ k) by (apply pow_lt; lra).
  replace (Q2R y) with (2 ^ k * (Q2R y / 2 ^ k)) by (field; lra).
  assert (E : Q2R (1 + y / inject_Z (2 ^ Z.of_nat k)) = 1 + Q2R y / 2 ^ k).
  { rewrite Q2R_plus, Q2R_div.
    - rewrite RMicromega.Q2R_1. do 2 f_equal.
      unfold Q2R. cbn [Qnum Qden inject_Z].
      now rewrite Rinv_1, Rmult_1_r, <- pow_IZR.
    - intros N. apply Qeq_eqR in N. rewrite RMicromega.Q2R_0 in N.
      unfold Q2R in N. cbn [Qnum Qden inject_Z] in N.
      rewrite Rinv_1, Rmult_1_r, <- pow_IZR in N. lra. }
  apply sq_iter_sound.
  - apply Qle_Rle in Hq. now rewrite RMicromega.Q2R_0 in Hq.
  - rewrite E. apply exp_ineq1_le.
Qed.

(** [a < ln x] as soon as the rational bound of [exp (-a)] exceeds [1/x]. *)
Lemma ln_gt_of_exp_lower (k : nat) (a : Q) (x : R) :
  0 < x ->
  (0 <= 1 + (- a) / inject_Z (2 ^ Z.of_nat k))%Q ->
  / x < Q2R (exp_lower k (- a)) ->
  Q2R a < ln x.
Proof.
  intros Hx Hq Hlt.
  pose proof (exp_lower_sound k (- a) Hq) as Hs.
  rewrite Q2R_opp, exp_Ropp in Hs.
  assert (He : 0 < exp (Q2R a)) by apply exp_pos.
  rewrite <- (ln_exp (Q2R a)). apply ln_increasing; [exact He |].
  assert (H1 : / x < / exp (Q2R a)) by lra.
  apply (Rmult_lt_compat_l (x * exp (Q2R a))) in H1;
    [| now apply Rmult_lt_0_compat].
  replace (x * exp (Q2R a) * / x) with (exp (Q2R a)) in H1 by (field; lra).
  replace (x * exp (Q2R a) * / exp (Q2R a)) with x in H1 by (field; lra).
  exact H1.
Qed.

(** [ln x < b] as soon as the rational bound of [exp b] exceeds [x]. *)
Lemma ln_lt_of_exp_lower (k : nat) (b : Q) (x : R) :
  0 < x ->
  (0 <= 1 + b / inject_Z (2 ^ Z.of_nat k))%Q ->
  x < Q2R (exp_lower k b) ->
  ln x < Q2R b.
Proof.
  intros Hx Hq Hlt.
  pose proof (exp_lower_sound k b Hq) as Hs.
  rewrite <- (ln_exp (Q2R b)). apply ln_increasing; [exact Hx | lra].
Qed.

End ExpBounds.

Section EquilibriumPotential.

Local Open Scope R_scope.

Lemma F_pos : 0 < F.
Proof. unfold F. lra. Qed.

Lemma R_gas_pos : 0 < R_gas.
Proof. unfold R_gas. lra. Qed.

Lemma truediv_ok (a b : R) : b <> 0 -> truediv a b = ret (a / b).
Proof.
  intros Hb. unfold truediv. destruct (Req_dec_T b 0) as [E | _]; [contradiction | reflexivity].
Qed.

Lemma truediv_zero (a : R) : truediv a 0 = raise ZeroDivisionError.
Proof.
  unfold truediv. destruct (Req_dec_T 0 0) as [_ | N]; [reflexivity | contradiction N; reflexivity].
Qed.

Lemma np_log_pos (x : R) : 0 < x -> np_log x = Fin (ln x).
Proof.
  intros Hx. unfold np_log.
  destruct (total_order_T x 0) as [[Hlt | Heq] | Hgt]; [lra | lra | reflexivity].
Qed.

Lemma np_log_zero : np_log 0 = NInf.
Proof.
  unfold np_log.
  destruct (total_order_T 0 0) as [[Hlt | Heq] | Hgt]; [lra | reflexivity | lra].
Qed.

Lemma np_log_neg (x : R) : x < 0 -> np_log x = NaN.
Proof.
  intros Hx. unfold np_log.
  destruct (total_order_T x 0) as [[Hlt | Heq] | Hgt]; [reflexivity | lra | lra].
Qed.

Lemma zF_nonzero (z : Z) : z <> 0%Z -> IZR z * F <> 0.
Proof.
  intros Hz. apply Rmult_integral_contrapositive_currified.
  - intros E. apply Hz. now apply eq_IZR_R0.
  - pose proof F_pos. lra.
Qed.

(** [GHK_V] fails only at a zero denominator; otherwise it returns the scaled
    logarithm, finite or not. *)
Lemma GHK_V_unfold (K_in K_out Na_in Na_out Cl_in Cl_out P_K P_Na P_Cl T : R) :
  P_K * K_in + P_Na * Na_in + P_Cl * Cl_out <> 0 ->
  GHK_V K_in K_out Na_in Na_out Cl_in Cl_out P_K P_Na P_Cl T
  = ret (np_mul (R_gas * T / F)
           (np_log ((P_K * K_out + P_Na * Na_out + P_Cl * Cl_in)
                    / (P_K * K_in + P_Na * Na_in + P_Cl * Cl_out)))).
Proof.
  intros Hden. unfold GHK_V. cbv zeta.
  rewrite (truediv_ok (R_gas * T) F) by (pose proof F_pos; lra).
  cbn [bind ret].
  rewrite truediv_ok by exact Hden.
  reflexivity.
Qed.

(** The Nernst expression validates nothing: the only way it fails is a
    division by zero, at [z * F] or at [Cout]. *)
Lemma nernst_cases (z : Z) (c_in c_out T : R) :
  (z = 0%Z \/ c_out = 0) /\ nernst z c_in c_out T = raise ZeroDivisionError
  \/ (z <> 0%Z /\ c_out <> 0)
     /\ nernst z c_in c_out T
        = ret (np_mul (- R_gas * T / (IZR z * F)) (np_log (c_in / c_out))).
Proof.
  unfold nernst.
  destruct (Z.eq_dec z 0) as [-> | Hz].
  - left. split; [now left |].
    replace (IZR 0 * F) with 0 by lra. now rewrite truediv_zero.
  - rewrite truediv_ok by (apply zF_nonzero; exact Hz). cbn [bind ret].
    destruct (Req_dec_T c_out 0) as [-> | Hout].
    + left. split; [now right |]. now rewrite truediv_zero.
    + right. split; [now split |]. now rewrite truediv_ok by exact Hout.
Qed.

Lemma nernst_unfold (z : Z) (c_in c_out T : R) :
  z <> 0%Z -> c_out <> 0 ->
  nernst z c_in c_out T
  = ret (np_mul (- R_gas * T / (IZR z * F)) (np_log (c_in / c_out))).
Proof.
  intros Hz Hout.
  destruct (nernst_cases z c_in c_out T) as [[[N | N] _] | [_ E]];
    [contradiction | contradiction | exact E].
Qed.

(** C1.  Where the argument of the logarithm is defined (the denominator is
    not zero and the quotient is positive), [GHK_V] returns
    [(R*T/F) * ln (num/den)] with
    [num = P_K*K_out + P_Na*Na_out + P_Cl*Cl_in] and
    [den = P_K*K_in + P_Na*Na_in + P_Cl*Cl_out]. *)
Theorem GHK_V_formula (K_in K_out Na_in Na_out Cl_in Cl_out P_K P_Na P_Cl T : R) :
  P_K * K_in + P_Na * Na_in + P_Cl * Cl_out <> 0 ->
  0 < (P_K * K_out + P_Na * Na_out + P_Cl * Cl_in)
      / (P_K * K_in + P_Na * Na_in + P_Cl * Cl_out) ->
  GHK_V K_in K_out Na_in Na_out Cl_in Cl_out P_K P_Na P_Cl T
  = ret (Fin ((R_gas * T / F)
              * ln ((P_K * K_out + P_Na * Na_out + P_Cl * Cl_in)
                    / (P_K * K_in + P_Na * Na_in + P_Cl * Cl_out)))).
Proof.
  intros Hden Hpos.
  rewrite GHK_V_unfold by exact Hden.
  rewrite np_log_pos by exact Hpos.
  reflexivity.
Qed.

Lemma GHK_V_formula_witness :
  1 * 400 + 0.03 * 50 + 0.1 * 540 <> 0 /\
  0 < (1 * 10 + 0.03 * 460 + 0.1 * 40) / (1 * 400 + 0.03 * 50 + 0.1 * 540) /\
  GHK_V 400 10 50 460 40 540 1 0.03 0.1 (273.15 + 20)
  = ret (Fin ((R_gas * (273.15 + 20) / F)
              * ln ((1 * 10 + 0.03 * 460 + 0.1 * 40)
                    / (1 * 400 + 0.03 * 50 + 0.1 * 540)))).
Proof.
  split; [lra |]. split; [lra |].
  apply (GHK_V_formula 400 10 50 460 40 540 1 0.03 0.1 (273.15 + 20)); lra.
Defined.

(** C2.  For a valence [z <> 0], concentrations [c_in > 0], [c_out > 0] and
    a temperature [T > 0], the Nernst expression evaluates, without raising,
    to the finite value [-(R*T)/(z*F) * ln (c_in/c_out)].  The expression is a
    function of its four inputs and the two constants only: the embedding
    threads no state. *)
Theorem nernst_formula (z : Z) (c_in c_out T : R) :
  z <> 0%Z -> 0 < c_in -> 0 < c_out -> 0 < T ->
  nernst z c_in c_out T
  = ret (Fin (- (R_gas * T) / (IZR z * F) * ln (c_in / c_out))).
Proof.
  intros Hz Hin Hout HT.
  rewrite nernst_unfold by (try assumption; lra).
  rewrite np_log_pos by (apply Rdiv_lt_0_compat; assumption).
  cbn [np_mul].
  replace (- R_gas * T / (IZR z * F)) with (- (R_gas * T) / (IZR z * F))
    by (f_equal; ring).
  reflexivity.
Qed.

Lemma nernst_formula_witness :
  nernst 1 140 5 (273.15 + 37)
  = ret (Fin (- (R_gas * (273.15 + 37)) / (IZR 1 * F) * ln (140 / 5))).
Proof.
  apply (nernst_formula 1 140 5 (273.15 + 37)); [lia | lra | lra | lra].
Defined.

(** C7.  Equal concentrations inside and outside give exactly zero: for
    [z <> 0], [c > 0] and [T > 0], [nernst z c c T] is the finite value 0. *)
Theorem nernst_equal_concentrations (z : Z) (c T : R) :
  z <> 0%Z -> 0 < c -> 0 < T -> nernst z c c T = ret (Fin 0).
Proof.
  intros Hz Hc HT.
  rewrite nernst_unfold by (try assumption; lra).
  replace (c / c) with 1 by (field; lra).
  rewrite np_log_pos by lra.
  cbn [np_mul]. rewrite ln_1. do 2 f_equal. ring.
Qed.

Lemma nernst_equal_concentrations_witness :
  nernst 1 140 140 (273.15 + 37) = ret (Fin 0).
Proof.
  apply (nernst_equal_concentrations 1 140 (273.15 + 37)); [lia | lra | lra].
Defined.

(** C6, as stated, fails: with an inside concentration of zero the expression
    returns normally (the value is [+inf]) although [c_in <= 0]. *)
Lemma nernst_raises_counterexample :
  nernst 1 0 5 (273.15 + 37) = ret PInf
  /\ ~ (raises (nernst 1 0 5 (273.15 + 37)) <-> (0 <= 0 \/ 5 <= 0 \/ 1%Z = 0%Z)).
Proof.
  split.
  { unfold nernst.
    rewrite truediv_ok by (pose proof F_pos; lra). cbn [bind ret].
    rewrite truediv_ok by lra. cbn [bind ret].
    replace (0 / 5) with 0 by lra. rewrite np_log_zero.
    cbn [np_mul]. unfold scale_inf.
    destruct (total_order_T (- R_gas * (273.15 + 37) / (1 * F)) 0)
      as [[Hlt | Heq] | Hgt]; [reflexivity | exfalso | exfalso].
    - assert (0 < R_gas * (273.15 + 37) / (1 * F)).
      { apply Rdiv_lt_0_compat; pose proof F_pos; pose proof R_gas_pos; nra. }
      lra.
    - assert (0 < R_gas * (273.15 + 37) / (1 * F)).
      { apply Rdiv_lt_0_compat; pose proof F_pos; pose proof R_gas_pos; nra. }
      lra. }
  intros [_ H].
  assert (Hr : raises (nernst 1 0 5 (273.15 + 37))) by (apply H; left; lra).
  destruct (nernst_cases 1 0 5 (273.15 + 37)) as [[[Hz | Hc] _] | [_ E]].
  - lia.
  - lra.
  - rewrite E in Hr. exact Hr.
Qed.

Lemma np_mul_log_not_finite (k q : R) :
  q <= 0 -> forall r : R, np_mul k (np_log q) <> Fin r.
Proof.
  intros Hq r. destruct (Rle_lt_or_eq_dec q 0 Hq) as [Hlt | ->].
  - rewrite np_log_neg by exact Hlt. discriminate.
  - rewrite np_log_zero. cbn [np_mul]. unfold scale_inf.
    destruct (total_order_T k 0) as [[_ | _] | _]; discriminate.
Qed.

(** C6, amended.  The expression raises exactly when [c_out = 0] or
    [valence = 0]; the exception is [ZeroDivisionError], raised by the
    division that receives the zero.  For all other inputs, [c_in <= 0] and
    [c_out < 0] included, it returns a value, which is infinite or [nan] when
    [c_in / c_out <= 0]. *)
Theorem nernst_raises_iff (z : Z) (c_in c_out T : R) :
  (raises (nernst z c_in c_out T) <-> (c_out = 0 \/ z = 0%Z))
  /\ (raises (nernst z c_in c_out T) ->
      nernst z c_in c_out T = raise ZeroDivisionError)
  /\ (~ (c_out = 0 \/ z = 0%Z) ->
      exists v : float64,
        nernst z c_in c_out T = ret v
        /\ (c_in / c_out <= 0 -> forall r : R, v <> Fin r)).
Proof.
  destruct (nernst_cases z c_in c_out T) as [[Hbad E] | [[Hz Hout] E]];
    rewrite E; cbn [raises raise ret].
  - split; [tauto |]. split; [reflexivity | tauto].
  - split; [tauto |]. split; [tauto |]. intros _. eexists. split; [reflexivity |].
    apply np_mul_log_not_finite.
Qed.

(** C8.  At the parameters of Johnston and Wu ([K_in = 400], [K_out = 10],
    [Na_in = 50], [Na_out = 460], [Cl_in = 40], [Cl_out = 540], permeabilities
    1 : 0.03 : 0.1, 20 degrees Celsius) [GHK_V] returns a finite value within
    [1e-4] of [-0.0706] volts. *)
Theorem GHK_V_Johnston_Wu :
  exists v : R,
    GHK_V 400 10 50 460 40 540 1.0 0.03 0.1 (273.15 + 20) = ret (Fin v)
    /\ Rabs (v - (-0.0706)) < 1e-4.
Proof.
  eexists. split.
  - rewrite GHK_V_unfold by lra. rewrite np_log_pos by lra. reflexivity.
  - cbv beta.
    replace ((1.0 * 10 + 0.03 * 460 + 0.1 * 40) / (1.0 * 400 + 0.03 * 50 + 0.1 * 540))
      with (278 / 4555) by lra.
    assert (Hx : 0 < 278 / 4555) by lra.
    assert (Hlo : Q2R (-27985 # 10000) < ln (278 / 4555)).
    { apply (ln_gt_of_exp_lower 13); [exact Hx | vm_compute; discriminate |].
      replace (/ (278 / 4555)) with (Q2R (4555 # 278))
        by (unfold Q2R; cbn [Qnum Qden]; field).
      apply Qlt_Rlt. vm_compute. reflexivity. }
    assert (Hhi : ln (278 / 4555) < Q2R (-2792 # 1000)).
    { apply (ln_lt_of_exp_lower 13); [exact Hx | vm_compute; discriminate |].
      replace (278 / 4555) with (Q2R (278 # 4555))
        by (unfold Q2R; cbn [Qnum Qden]; field).
      apply Qlt_Rlt. vm_compute. reflexivity. }
    unfold Q2R in Hlo, Hhi. cbn [Qnum Qden] in Hlo, Hhi.
    set (l := ln (278 / 4555)) in *.
    unfold R_gas, F. apply Rabs_def1; lra.
Qed.

(** The worked example of the notebook, K+ at 37 degrees Celsius with 140 mM
    inside and 5 mM outside: about -89 mV. *)
Example nernst_potassium :
  exists v : R,
    nernst 1 140.0 5.0 (273.15 + 37) = ret (Fin v)
    /\ Rabs (v - (-0.0890)) < 1e-4.
Proof.
  eexists. split.
  - rewrite nernst_unfold by (try lia; lra).
    rewrite np_log_pos by lra. reflexivity.
  - replace (140.0 / 5.0) with 28 by lra.
    assert (Hlo : Q2R (33265 # 10000) < ln 28).
    { apply (ln_gt_of_exp_lower 13); [lra | vm_compute; discriminate |].
      replace (/ 28) with (Q2R (1 # 28)) by (unfold Q2R; cbn [Qnum Qden]; lra).
      apply Qlt_Rlt. vm_compute. reflexivity. }
    assert (Hhi : ln 28 < Q2R (33339 # 10000)).
    { apply (ln_lt_of_exp_lower 13); [lra | vm_compute; discriminate |].
      replace 28 with (Q2R (28 # 1)) at 1 by (unfold Q2R; cbn [Qnum Qden]; lra).
      apply Qlt_Rlt. vm_compute. reflexivity. }
    unfold Q2R in Hlo, Hhi. cbn [Qnum Qden] in Hlo, Hhi.
    set (l := ln 28) in *.
    unfold R_gas, F. apply Rabs_def1; lra.
Qed.

End EquilibriumPotential.

Section GateTables.

Local Open Scope R_scope.

Lemma exp_minus_1_nonzero (y : R) : y <> 0 -> exp (y / 10) - 1 <> 0.
Proof.
  intros Hy E. apply Hy.
  assert (E' : exp (y / 10) = exp 0) by (rewrite exp_0; lra).
  apply exp_inv in E'. lra.
Qed.

(** The HH rate [c * y / (exp (y / 10) - 1)] with [y = y0 - 1e3 * (v - E)]:
    defined exactly when [y <> 0]. *)
Lemma eval_singular_rate (c y0 v : R) :
  let y := y0 - 1e3 * (v - EREST_ACT) in
  eval (Num 1e3 * Num c * (Num y0 - Num 1e3 * shifted)
        / (Exp ((Num y0 - Num 1e3 * shifted) / Num 10) - Num 1))%expr v
  = if Req_dec_T y 0 then None
    else Some (1e3 * c * y / (exp (y / 10) - 1)).
Proof.
  intros y. cbn [eval shifted mbind option_bind]. fold y.
  destruct (Req_dec_T 10 0) as [E | _]; [lra |]. cbn [mbind option_bind].
  destruct (Req_dec_T y 0) as [Hy | Hy].
  - rewrite Hy. replace (0 / 10) with 0 by lra. rewrite exp_0.
    destruct (Req_dec_T (1 - 1) 0) as [_ | N]; [reflexivity | lra].
  - destruct (Req_dec_T (exp (y / 10) - 1) 0) as [E | _]; [| reflexivity].
    now apply exp_minus_1_nonzero in E.
Qed.

Lemma eval_exp_rate (c d v : R) :
  d <> 0 ->
  eval (Num 1e3 * Num c * Exp (- Num 1e3 * shifted / Num d))%expr v
  = Some (1e3 * c * exp (- (1e3) * (v - EREST_ACT) / d)).
Proof.
  intros Hd. cbn [eval shifted mbind option_bind].
  destruct (Req_dec_T d 0) as [E | _]; [contradiction |].
  reflexivity.
Qed.

Lemma eval_h_beta (v : R) :
  eval h_betaExpr v = Some (1e3 / (exp ((30 - 1e3 * (v - EREST_ACT)) / 10) + 1)).
Proof.
  unfold h_betaExpr. cbn [eval shifted mbind option_bind].
  destruct (Req_dec_T 10 0) as [E | _]; [lra |]. cbn [mbind option_bind].
  destruct (Req_dec_T (exp ((30 - 1e3 * (v - EREST_ACT)) / 10) + 1) 0) as [E | _];
    [| reflexivity].
  pose proof (exp_pos ((30 - 1e3 * (v - EREST_ACT)) / 10)). lra.
Qed.

(** The sample voltages of the three gates: [-110 mV + i * 0.16 mV]. *)
Lemma sample_voltage_gate (i : nat) :
  sample_voltage gate_min gate_max gate_divs i
  = -110e-3 + IZR (Z.of_nat i) * 0.16e-3.
Proof.
  unfold sample_voltage, gate_min, gate_max, gate_divs.
  rewrite !INR_IZR_INZ. change (Z.of_nat 1000) with 1000%Z. lra.
Qed.

(** No sample voltage is a singular voltage of [alpha_m] or [alpha_n]. *)
Lemma sample_off_m_singularity (i : nat) :
  25 - 1e3 * (sample_voltage gate_min gate_max gate_divs i - EREST_ACT) <> 0.
Proof.
  rewrite sample_voltage_gate. unfold EREST_ACT. intros E.
  assert (E' : IZR (4 * Z.of_nat i) = IZR 1625) by (rewrite mult_IZR; lra).
  apply eq_IZR in E'. lia.
Qed.

Lemma sample_off_n_singularity (i : nat) :
  10 - 1e3 * (sample_voltage gate_min gate_max gate_divs i - EREST_ACT) <> 0.
Proof.
  rewrite sample_voltage_gate. unfold EREST_ACT. intros E.
  assert (E' : IZR (2 * Z.of_nat i) = IZR 625) by (rewrite mult_IZR; lra).
  apply eq_IZR in E'. lia.
Qed.

(** The sample voltages keep their distance from the two singular voltages:
    0.04 mV from that of [alpha_m], 0.08 mV from that of [alpha_n]. *)
Lemma sample_clear_of_m_singularity (i : nat) :
  0.04e-3 <= Rabs (sample_voltage gate_min gate_max gate_divs i - (EREST_ACT + 25e-3)).
Proof.
  rewrite sample_voltage_gate. unfold EREST_ACT.
  destruct (Z_le_gt_dec (Z.of_nat i) 406) as [Hle | Hgt].
  - apply IZR_le in Hle. rewrite Rabs_left1; lra.
  - assert (Hge : (407 <= Z.of_nat i)%Z) by lia.
    apply IZR_le in Hge. rewrite Rabs_right; lra.
Qed.

Lemma sample_clear_of_n_singularity (i : nat) :
  0.08e-3 <= Rabs (sample_voltage gate_min gate_max gate_divs i - (EREST_ACT + 10e-3)).
Proof.
  rewrite sample_voltage_gate. unfold EREST_ACT.
  destruct (Z_le_gt_dec (Z.of_nat i) 312) as [Hle | Hgt].
  - apply IZR_le in Hle. rewrite Rabs_left1; lra.
  - assert (Hge : (313 <= Z.of_nat i)%Z) by lia.
    apply IZR_le in Hge. rewrite Rabs_right; lra.
Qed.

Lemma tabulate_defined (e : expr) (v_min v_max : R) (divisions : nat) :
  (forall i : nat, is_Some (eval e (sample_voltage v_min v_max divisions i))) ->
  List.Forall is_Some (tabulate e v_min v_max divisions).
Proof.
  intros H. unfold tabulate. apply List.Forall_forall. intros o Ho.
  apply in_map_iff in Ho. destruct Ho as [i [<- _]]. apply H.
Qed.

Lemma length_tabulate (e : expr) (v_min v_max : R) (divisions : nat) :
  length (tabulate e v_min v_max divisions) = S divisions.
Proof. unfold tabulate. now rewrite length_map, length_seq. Qed.

(** Each of the six rate expressions has a value at every sample voltage. *)
Lemma rate_defined_on_grid (e : expr) (i : nat) :
  In e [m_alphaExpr; m_betaExpr; h_alphaExpr; h_betaExpr; n_alphaExpr; n_betaExpr] ->
  is_Some (eval e (sample_voltage gate_min gate_max gate_divs i)).
Proof.
  set (v := sample_voltage gate_min gate_max gate_divs i).
  intros [<- | [<- | [<- | [<- | [<- | [<- | []]]]]]].
  - unfold m_alphaExpr. rewrite eval_singular_rate. cbv zeta.
    destruct (Req_dec_T (25 - 1e3 * (v - EREST_ACT)) 0) as [E | _]; [| eauto].
    now apply sample_off_m_singularity in E.
  - unfold m_betaExpr. rewrite eval_exp_rate by lra. eauto.
  - unfold h_alphaExpr. rewrite eval_exp_rate by lra. eauto.
  - rewrite eval_h_beta. eauto.
  - unfold n_alphaExpr. rewrite eval_singular_rate. cbv zeta.
    destruct (Req_dec_T (10 - 1e3 * (v - EREST_ACT)) 0) as [E | _]; [| eauto].
    now apply sample_off_n_singularity in E.
  - unfold n_betaExpr. rewrite eval_exp_rate by lra. eauto.
Qed.

(** C9.  Filling the tables of the m, h and n gates evaluates the six rate
    expressions at the 1001 sample voltages [-110 mV + i * 0.16 mV]
    ([i = 0 .. 1000], from -110 mV to 50 mV) and no evaluation divides by zero,
    although [alpha_m] does at [EREST_ACT + 25 mV] and [alpha_n] at
    [EREST_ACT + 10 mV], both inside the range: no sample voltage is one of
    the two, the nearest samples being 0.04 mV and 0.08 mV away. *)
Theorem gate_tables_never_divide_by_zero :
  List.Forall
    (fun e => List.Forall is_Some (tabulate e gate_min gate_max gate_divs)
              /\ length (tabulate e gate_min gate_max gate_divs) = 1001%nat)
    [m_alphaExpr; m_betaExpr; h_alphaExpr; h_betaExpr; n_alphaExpr; n_betaExpr]
  /\ sample_voltage gate_min gate_max gate_divs 0 = -110e-3
  /\ sample_voltage gate_min gate_max gate_divs 1000 = 50e-3
  /\ (forall i : nat,
        sample_voltage gate_min gate_max gate_divs (S i)
        - sample_voltage gate_min gate_max gate_divs i = 0.16e-3)
  /\ (gate_min <= EREST_ACT + 25e-3 <= gate_max
      /\ eval m_alphaExpr (EREST_ACT + 25e-3) = None)
  /\ (gate_min <= EREST_ACT + 10e-3 <= gate_max
      /\ eval n_alphaExpr (EREST_ACT + 10e-3) = None)
  /\ (forall i : nat,
        sample_voltage gate_min gate_max gate_divs i <> EREST_ACT + 25e-3
        /\ sample_voltage gate_min gate_max gate_divs i <> EREST_ACT + 10e-3)
  /\ (forall i : nat,
        0.04e-3 <= Rabs (sample_voltage gate_min gate_max gate_divs i
                         - (EREST_ACT + 25e-3))
        /\ 0.08e-3 <= Rabs (sample_voltage gate_min gate_max gate_divs i
                            - (EREST_ACT + 10e-3))).
Proof.
  split; [| split; [| split; [| split; [| split; [| split; [| split]]]]]].
  - apply List.Forall_forall. intros e He. split.
    + apply tabulate_defined. intros i. now apply rate_defined_on_grid.
    + apply length_tabulate.
  - rewrite sample_voltage_gate. change (Z.of_nat 0) with 0%Z. lra.
  - rewrite sample_voltage_gate. change (Z.of_nat 1000) with 1000%Z. lra.
  - intros i. rewrite !sample_voltage_gate, Nat2Z.inj_succ, succ_IZR. lra.
  - split; [unfold gate_min, gate_max, EREST_ACT; lra |].
    unfold m_alphaExpr. rewrite eval_singular_rate. cbv zeta.
    destruct (Req_dec_T (25 - 1e3 * (EREST_ACT + 25e-3 - EREST_ACT)) 0) as [_ | N];
      [reflexivity | exfalso; apply N; lra].
  - split; [unfold gate_min, gate_max, EREST_ACT; lra |].
    unfold n_alphaExpr. rewrite eval_singular_rate. cbv zeta.
    destruct (Req_dec_T (10 - 1e3 * (EREST_ACT + 10e-3 - EREST_ACT)) 0) as [_ | N];
      [reflexivity | exfalso; apply N; lra].
  - intros i. split; intros E.
    + apply (sample_off_m_singularity i). rewrite E. lra.
    + apply (sample_off_n_singularity i). rewrite E. lra.
  - intros i. split.
    + apply sample_clear_of_m_singularity.
    + apply sample_clear_of_n_singularity.
Qed.

End GateTables.

Section SpikeDetection.

Lemma side_of_above (thr v : Q) : (thr < v)%Q -> side_of thr v = Some true.
Proof.
  intros H. unfold side_of.
  destruct (Qlt_le_dec thr v) as [_ | N]; [reflexivity |].
  exfalso. exact (Qlt_not_le _ _ H N).
Qed.

Lemma side_of_below (thr v : Q) : (v < thr)%Q -> side_of thr v = Some false.
Proof.
  intros H. unfold side_of.
  destruct (Qlt_le_dec thr v) as [N | _].
  - exfalso. exact (Qlt_irrefl _ (Qlt_trans _ _ _ H N)).
  - destruct (Qlt_le_dec v thr) as [_ | N]; [reflexivity |].
    exfalso. exact (Qlt_not_le _ _ H N).
Qed.

Lemma side_of_on (thr v : Q) : (v <= thr)%Q -> (thr <= v)%Q -> side_of thr v = None.
Proof.
  intros H1 H2. unfold side_of.
  destruct (Qlt_le_dec thr v) as [N | _]; [exfalso; exact (Qlt_not_le _ _ N H1) |].
  destruct (Qlt_le_dec v thr) as [N | _]; [exfalso; exact (Qlt_not_le _ _ N H2) |].
  reflexivity.
Qed.

(** What one sample does, by the side the sample is on. *)
Lemma sample_side (d : SpikeDetector) (now v : Q) :
  sample d now v =
  match side_of (threshold d) v, state d with
  | Some true, BELOW_THRESHOLD => (with_state d ABOVE_THRESHOLD, [(now + delay d)%Q])
  | Some false, ABOVE_THRESHOLD => (with_state d BELOW_THRESHOLD, [])
  | _, _ => (d, [])
  end.
Proof.
  unfold sample.
  destruct (Qlt_le_dec (threshold d) v) as [Hup | Hle].
  - rewrite (side_of_above _ _ Hup). destruct (state d); [reflexivity |].
    destruct (Qlt_le_dec v (threshold d)) as [N | _]; [| reflexivity].
    exfalso. exact (Qlt_irrefl _ (Qlt_trans _ _ _ Hup N)).
  - destruct (Qlt_le_dec v (threshold d)) as [Hdown | Hge].
    + rewrite (side_of_below _ _ Hdown). now destruct (state d).
    + rewrite (side_of_on _ _ Hle Hge). now destruct (state d).
Qed.

Lemma run_count (trace : list Q) : forall (d : SpikeDetector) (now dt : Q),
  length (snd (run d now dt trace))
  = upward_crossings (threshold d) (is_above (state d)) trace.
Proof.
  unfold upward_crossings.
  induction trace as [| v rest IH]; intros d now dt; [reflexivity |].
  cbn [run omap list_omap]. rewrite sample_side.
  destruct (side_of (threshold d) v) as [[|] |] eqn:Es, (state d) eqn:Est;
    cbn [mbind option_bind].
  - specialize (IH (with_state d ABOVE_THRESHOLD) (now + dt)%Q dt).
    destruct (run (with_state d ABOVE_THRESHOLD) (now + dt) dt rest) as [d2 evs].
    cbn [snd length app rises negb andb is_above with_state threshold state Nat.add] in *.
    now rewrite IH.
  - specialize (IH d (now + dt)%Q dt).
    destruct (run d (now + dt) dt rest) as [d2 evs].
    cbn [snd length app rises negb andb is_above with_state threshold state Nat.add] in *.
    now rewrite IH, Est.
  - specialize (IH d (now + dt)%Q dt).
    destruct (run d (now + dt) dt rest) as [d2 evs].
    cbn [snd length app rises negb andb is_above with_state threshold state Nat.add] in *.
    now rewrite IH, Est.
  - specialize (IH (with_state d BELOW_THRESHOLD) (now + dt)%Q dt).
    destruct (run (with_state d BELOW_THRESHOLD) (now + dt) dt rest) as [d2 evs].
    cbn [snd length app rises negb andb is_above with_state threshold state Nat.add] in *.
    now rewrite IH.
  - specialize (IH d (now + dt)%Q dt).
    destruct (run d (now + dt) dt rest) as [d2 evs].
    cbn [snd length app] in *. now rewrite IH, Est.
  - specialize (IH d (now + dt)%Q dt).
    destruct (run d (now + dt) dt rest) as [d2 evs].
    cbn [snd length app] in *. now rewrite IH, Est.
Qed.

Lemma rises_repeat (k : nat) (prev b : bool) (rest : list bool) :
  rises prev (repeat b (S k) ++ rest)
  = ((if negb prev && b then 1 else 0) + rises b rest)%nat.
Proof.
  revert prev. induction k as [| k IH]; intros prev; [reflexivity |].
  change (repeat b (S (S k)) ++ rest) with (b :: (repeat b (S k) ++ rest)).
  cbn [rises]. rewrite IH. now destruct b.
Qed.

Lemma omap_repeat (thr v : Q) (n : nat) :
  omap (side_of thr) (repeat v n)
  = match side_of thr v with
    | Some b => repeat b n
    | None => []
    end.
Proof.
  induction n as [| n IH]; cbn [repeat omap list_omap].
  - now destruct (side_of thr v).
  - change (list_omap Q bool (side_of thr) (repeat v n))
      with (omap (side_of thr) (repeat v n)).
    rewrite IH. now destruct (side_of thr v).
Qed.

(** Reading every sample several times changes no crossing. *)
Lemma upward_crossings_oversample (thr : Q) (k : nat) (trace : list Q) :
  forall above : bool,
    upward_crossings thr above (oversample k trace)
    = upward_crossings thr above trace.
Proof.
  unfold upward_crossings, oversample.
  induction trace as [| v rest IH]; intros above; [reflexivity |].
  cbn [flat_map]. rewrite omap_app, omap_repeat.
  cbn [omap list_omap].
  destruct (side_of thr v) as [b |].
  - rewrite rises_repeat. cbn [rises]. now rewrite <- IH.
  - cbn [app]. apply IH.
Qed.

(** C3.  The detector emits one event at each upward crossing and nowhere
    else: a sample strictly above the threshold taken in state BELOW gives the
    transition to ABOVE with one event, stamped with the time plus the delay;
    a sample below the threshold taken in state ABOVE gives the transition to
    BELOW with no event; a sample on the side the detector is on (or equal to
    the threshold) changes nothing and emits nothing.  Over a whole trace the
    number of events is the number of upward crossings of the trace, and it
    stays the same when every sample is read [S k] times, whatever the step. *)
Theorem one_event_per_upward_crossing
  (d : SpikeDetector) (now dt : Q) (trace : list Q) :
  (forall v : Q,
     (state d = BELOW_THRESHOLD -> (threshold d < v)%Q ->
      sample d now v = (with_state d ABOVE_THRESHOLD, [(now + delay d)%Q]))
     /\ (state d = ABOVE_THRESHOLD -> (v < threshold d)%Q ->
         sample d now v = (with_state d BELOW_THRESHOLD, []))
     /\ (state d = BELOW_THRESHOLD -> (v <= threshold d)%Q ->
         sample d now v = (d, []))
     /\ (state d = ABOVE_THRESHOLD -> (threshold d <= v)%Q ->
         sample d now v = (d, [])))
  /\ length (snd (run d now dt trace))
     = upward_crossings (threshold d) (is_above (state d)) trace
  /\ (forall (k : nat) (dt' : Q),
        length (snd (run d now dt' (oversample k trace)))
        = length (snd (run d now dt trace))).
Proof.
  split; [| split].
  - intros v. unfold sample. repeat split; intros Hst Hv; rewrite Hst.
    + destruct (Qlt_le_dec (threshold d) v) as [_ | N]; [reflexivity |].
      exfalso. exact (Qlt_not_le _ _ Hv N).
    + destruct (Qlt_le_dec v (threshold d)) as [_ | N]; [reflexivity |].
      exfalso. exact (Qlt_not_le _ _ Hv N).
    + destruct (Qlt_le_dec (threshold d) v) as [N | _]; [| reflexivity].
      exfalso. exact (Qlt_not_le _ _ N Hv).
    + destruct (Qlt_le_dec v (threshold d)) as [N | _]; [| reflexivity].
      exfalso. exact (Qlt_not_le _ _ N Hv).
  - apply run_count.
  - intros k dt'. rewrite !run_count. apply upward_crossings_oversample.
Qed.

(** A membrane voltage (in mV) that spikes twice, sampled every 0.1 ms with
    threshold 0 and a delay of 1 ms: two events, one per spike, stamped
    1.2 ms and 1.7 ms. *)
Example run_two_spikes :
  run {| threshold := 0; delay := 1; state := BELOW_THRESHOLD |} 0 (1 # 10)
      [-70; -20; 15; 30; 30; 5; -40; 10; 0; 25; -75]%Q
  = ({| threshold := 0; delay := 1; state := BELOW_THRESHOLD |},
     [(0 + (1 # 10) + (1 # 10) + 1)%Q;
      (0 + (1 # 10) + (1 # 10) + (1 # 10) + (1 # 10) + (1 # 10) + (1 # 10) + (1 # 10) + 1)%Q]).
Proof. reflexivity. Qed.

End SpikeDetection.

Section GateInterpolation.

Lemma well_formed_spec (tab : InterpolationTable) :
  well_formed tab = true ->
  (1 <= divisions tab)%nat
  /\ (v_min tab < v_max tab)%Q
  /\ length (alpha_tab tab) = S (divisions tab)
  /\ length (beta_tab tab) = S (divisions tab).
Proof.
  unfold well_formed. intros H.
  apply andb_prop in H as [H Hb]. apply andb_prop in H as [H Ha].
  apply andb_prop in H as [Hd Hv].
  apply Nat.leb_le in Hd. apply Nat.eqb_eq in Ha. apply Nat.eqb_eq in Hb.
  repeat split; try assumption.
  apply Qnot_le_lt. intros N. apply Qle_bool_iff in N.
  rewrite N in Hv. discriminate.
Qed.

Lemma build_table_well_formed (alpha_fn beta_fn : Q -> Q) (lo hi : Q)
  (n : nat) (tab : InterpolationTable) :
  build_table alpha_fn beta_fn lo hi n = inr tab -> well_formed tab = true.
Proof.
  unfold build_table. intros H.
  destruct ((n <? 1)%nat || Qle_bool hi lo) eqn:E; [discriminate |].
  apply orb_false_elim in E as [En Ev]. injection H as <-.
  unfold well_formed. cbn [divisions v_min v_max alpha_tab beta_tab].
  cbn [length]. rewrite !length_map, !length_seq, Nat.eqb_refl, Ev.
  apply Nat.ltb_ge in En. apply Nat.leb_le in En. now rewrite En.
Qed.

Lemma clamp_low (lo hi v : Q) : (v < lo)%Q -> clamp lo hi v = lo.
Proof.
  intros H. unfold clamp.
  destruct (Qlt_le_dec v lo) as [_ | N]; [reflexivity |].
  exfalso. exact (Qlt_not_le _ _ H N).
Qed.

Lemma clamp_high (lo hi v : Q) : (lo < hi)%Q -> (hi < v)%Q -> clamp lo hi v = hi.
Proof.
  intros Hlh H. unfold clamp.
  destruct (Qlt_le_dec v lo) as [N | _].
  - exfalso. exact (Qlt_irrefl _ (Qlt_trans _ _ _ (Qlt_trans _ _ _ Hlh H) N)).
  - destruct (Qlt_le_dec hi v) as [_ | N]; [reflexivity |].
    exfalso. exact (Qlt_not_le _ _ H N).
Qed.

Lemma lerp_left (samples : list Q) (bin : nat) (frac y0 : Q) :
  (S bin < length samples)%nat -> samples !! bin = Some y0 -> frac == 0 ->
  exists y : Q, lerp samples bin frac = Some y /\ y == y0.
Proof.
  intros Hlen H0 Hf.
  destruct (lookup_lt_is_Some_2 samples (S bin) Hlen) as [y1 H1].
  unfold lerp. rewrite H0, H1. cbn [mbind option_bind].
  eexists. split; [reflexivity |]. rewrite Hf. ring.
Qed.

Lemma lerp_right (samples : list Q) (bin : nat) (frac y1 : Q) :
  samples !! S bin = Some y1 -> frac == 1 ->
  exists y : Q, lerp samples bin frac = Some y /\ y == y1.
Proof.
  intros H1 Hf.
  assert (Hlen : (bin < length samples)%nat).
  { apply lookup_lt_Some in H1. lia. }
  destruct (lookup_lt_is_Some_2 samples bin Hlen) as [y0 H0].
  unfold lerp. rewrite H0, H1. cbn [mbind option_bind].
  eexists. split; [reflexivity |]. rewrite Hf. ring.
Qed.

Lemma inject_nat_nonzero (n : nat) :
  (1 <= n)%nat -> ~ inject_Z (Z.of_nat n) == 0.
Proof.
  intros Hn E. unfold Qeq in E. cbn [Qnum Qden inject_Z] in E. lia.
Qed.

(** Below the range the position in the table is 0, above it [divisions]. *)
Lemma position_low (lo hi : Q) (n : nat) :
  (lo - lo) / bin_width lo hi n == 0.
Proof. unfold Qdiv. ring. Qed.

Lemma position_high (lo hi : Q) (n : nat) :
  (1 <= n)%nat -> (lo < hi)%Q ->
  (hi - lo) / bin_width lo hi n == inject_Z (Z.of_nat n).
Proof.
  intros Hn Hlh. unfold bin_width. field. split.
  - now apply inject_nat_nonzero.
  - intros E. apply Qlt_minus_iff in Hlh.
    change (hi + - lo) with (hi - lo) in Hlh. rewrite E in Hlh.
    exact (Qlt_irrefl _ Hlh).
Qed.

Lemma interpolate_low (tab : InterpolationTable) (v : Q) :
  well_formed tab = true -> (v < v_min tab)%Q ->
  exists r s : Q * Q,
    interpolate tab v = Some r /\ sample_at tab 0 = Some s /\ same_rates r s.
Proof.
  intros Hwf Hv. apply well_formed_spec in Hwf as (Hd & Hlh & Ha & Hb).
  unfold interpolate. rewrite clamp_low by exact Hv. cbv zeta.
  pose proof (position_low (v_min tab) (v_max tab) (divisions tab)) as Hpos.
  set (pos := (v_min tab - v_min tab) / _) in *.
  assert (Hfl : Qfloor pos = 0%Z) by now rewrite Hpos.
  rewrite Hfl. change (Z.to_nat 0) with 0%nat. cbn [Nat.min].
  assert (Hfrac : pos - inject_Z (Z.of_nat 0) == 0) by (rewrite Hpos; reflexivity).
  destruct (lookup_lt_is_Some_2 (alpha_tab tab) 0 ltac:(lia)) as [a0 Ea].
  destruct (lookup_lt_is_Some_2 (beta_tab tab) 0 ltac:(lia)) as [b0 Eb].
  destruct (lerp_left (alpha_tab tab) 0 _ a0 ltac:(lia) Ea Hfrac) as (a & -> & Haa).
  destruct (lerp_left (beta_tab tab) 0 _ b0 ltac:(lia) Eb Hfrac) as (b & -> & Hbb).
  exists (a, b), (a0, b0). unfold sample_at. rewrite Ea, Eb.
  repeat split; assumption.
Qed.

Lemma interpolate_high (tab : InterpolationTable) (v : Q) :
  well_formed tab = true -> (v_max tab < v)%Q ->
  exists r s : Q * Q,
    interpolate tab v = Some r
    /\ sample_at tab (divisions tab) = Some s /\ same_rates r s.
Proof.
  intros Hwf Hv. apply well_formed_spec in Hwf as (Hd & Hlh & Ha & Hb).
  unfold interpolate. rewrite clamp_high by assumption. cbv zeta.
  pose proof (position_high (v_min tab) (v_max tab) (divisions tab) Hd Hlh) as Hpos.
  set (pos := (v_max tab - v_min tab) / _) in *.
  assert (Hfl : Qfloor pos = Z.of_nat (divisions tab)).
  { rewrite Hpos. apply Qfloor_Z. }
  rewrite Hfl, Nat2Z.id.
  replace (Nat.min (divisions tab) (divisions tab - 1)) with (divisions tab - 1)%nat
    by lia.
  set (bin := (divisions tab - 1)%nat).
  assert (Hbin : S bin = divisions tab) by (unfold bin; lia).
  assert (Hfrac : pos - inject_Z (Z.of_nat bin) == 1).
  { rewrite Hpos, <- Hbin, Nat2Z.inj_succ. unfold Z.succ.
    rewrite inject_Z_plus. ring. }
  destruct (lookup_lt_is_Some_2 (alpha_tab tab) (S bin) ltac:(lia)) as [an Ea].
  destruct (lookup_lt_is_Some_2 (beta_tab tab) (S bin) ltac:(lia)) as [bn Eb].
  destruct (lerp_right (alpha_tab tab) bin _ an Ea Hfrac) as (a & -> & Haa).
  destruct (lerp_right (beta_tab tab) bin _ bn Eb Hfrac) as (b & -> & Hbb).
  exists (a, b), (an, bn). unfold sample_at. rewrite <- Hbin, Ea, Eb.
  repeat split; assumption.
Qed.

(** C4.  On a table as [build_table] makes them, a voltage below [v_min]
    interpolates to the sample stored for [v_min] and a voltage above [v_max]
    to the sample stored for [v_max]: the call returns (no failure), and the
    value is that boundary sample, not an extrapolation. *)
Theorem interpolate_out_of_range (tab : InterpolationTable) (v : Q) :
  well_formed tab = true ->
  ((v < v_min tab)%Q ->
   exists r s : Q * Q,
     interpolate tab v = Some r /\ sample_at tab 0 = Some s /\ same_rates r s)
  /\ ((v_max tab < v)%Q ->
      exists r s : Q * Q,
        interpolate tab v = Some r
        /\ sample_at tab (divisions tab) = Some s /\ same_rates r s).
Proof.
  intros Hwf. split; intros Hv.
  - now apply interpolate_low.
  - now apply interpolate_high.
Qed.

Lemma interpolate_out_of_range_witness :
  well_formed ramp_table = true
  /\ (((60 # 1000) < v_min ramp_table)%Q ->
      exists r s : Q * Q,
        interpolate ramp_table (60 # 1000) = Some r
        /\ sample_at ramp_table 0 = Some s /\ same_rates r s)
  /\ ((v_max ramp_table < (60 # 1000))%Q ->
      exists r s : Q * Q,
        interpolate ramp_table (60 # 1000) = Some r
        /\ sample_at ramp_table (divisions ramp_table) = Some s /\ same_rates r s).
Proof.
  split; [vm_compute; reflexivity |].
  apply (interpolate_out_of_range ramp_table (60 # 1000)).
  vm_compute. reflexivity.
Defined.

(** The ramps at 60 mV, above the range, and at -200 mV, below it: the last
    and the first samples. *)
Example interpolate_ramp_above :
  option_map (fun r => (Qred (fst r), Qred (snd r)))
    (interpolate ramp_table (60 # 1000)) = Some (1000%Q, 0%Q).
Proof. vm_compute. reflexivity. Qed.

Example interpolate_ramp_below :
  option_map (fun r => (Qred (fst r), Qred (snd r)))
    (interpolate ramp_table (-200 # 1000)) = Some (0%Q, 1000%Q).
Proof. vm_compute. reflexivity. Qed.

End GateInterpolation.

Section SynapticKernel.

Local Open Scope R_scope.

(** The slower exponential dominates: for [0 < tau2 < tau1],
    [tau1 * e^(-s/tau1) - tau2 * e^(-s/tau2) <= tau1 - tau2] at every [s]. *)
Lemma weighted_exp_gap (tau1 tau2 s : R) :
  0 < tau2 -> tau2 < tau1 ->
  tau1 * exp (- s / tau1) - tau2 * exp (- s / tau2) <= tau1 - tau2.
Proof.
  intros H2 H12.
  set (x := s / tau1). set (y := s / tau2).
  replace (- s / tau1) with (- x) by (unfold x; field; lra).
  replace (- s / tau2) with (- x + (x - y)) by (unfold x, y; field; lra).
  rewrite exp_plus.
  pose proof (exp_pos (- x)) as He.
  pose proof (exp_ineq1_le (x - y)) as Hd.
  pose proof (exp_ineq1_le x) as Hx.
  assert (Hinv : exp (- x) * exp x = 1).
  { rewrite <- exp_plus. replace (- x + x) with 0 by ring. apply exp_0. }
  assert (Hs : tau2 * y = tau1 * x) by (unfold x, y; field; lra).
  assert (H1 : tau2 * (exp (- x) * (1 + (x - y)))
               <= tau2 * (exp (- x) * exp (x - y))).
  { apply Rmult_le_compat_l; [lra |]. apply Rmult_le_compat_l; lra. }
  assert (H3 : exp (- x) * ((tau1 - tau2) * (1 + x))
               <= exp (- x) * ((tau1 - tau2) * exp x)).
  { apply Rmult_le_compat_l; [lra |]. apply Rmult_le_compat_l; lra. }
  replace (exp (- x) * ((tau1 - tau2) * exp x))
    with ((tau1 - tau2) * (exp (- x) * exp x)) in H3 by ring.
  rewrite Hinv in H3.
  replace (tau2 * (exp (- x) * (1 + (x - y))))
    with (exp (- x) * (tau2 + tau2 * x - tau2 * y)) in H1 by ring.
  rewrite Hs in H1.
  replace (exp (- x) * ((tau1 - tau2) * (1 + x)))
    with (tau1 * exp (- x) - exp (- x) * (tau2 + tau2 * x - tau1 * x)) in H3 by ring.
  lra.
Qed.

(** At [t_peak] the two exponentials are in the ratio [tau1 / tau2]. *)
Lemma peak_ratio (tau1 tau2 : R) :
  0 < tau1 -> 0 < tau2 -> tau1 <> tau2 ->
  exp (- t_peak tau1 tau2 / tau1)
  = exp (- t_peak tau1 tau2 / tau2) * (tau1 / tau2).
Proof.
  intros H1 H2 Hne.
  assert (Hq : 0 < tau2 / tau1) by now apply Rdiv_lt_0_compat.
  replace (- t_peak tau1 tau2 / tau1)
    with (- t_peak tau1 tau2 / tau2 + - ln (tau2 / tau1))
    by (unfold t_peak; field; repeat split; lra).
  rewrite exp_plus, exp_Ropp, exp_ln by exact Hq.
  f_equal. field. lra.
Qed.

Lemma kernel_at_peak (tau1 tau2 : R) :
  0 < tau1 -> 0 < tau2 -> tau1 <> tau2 ->
  kernel tau1 tau2 (t_peak tau1 tau2)
  = exp (- t_peak tau1 tau2 / tau2) * ((tau1 - tau2) / tau2).
Proof.
  intros H1 H2 Hne. unfold kernel. rewrite peak_ratio by assumption.
  field. lra.
Qed.

Lemma kernel_at_peak_nonzero (tau1 tau2 : R) :
  0 < tau1 -> 0 < tau2 -> tau1 <> tau2 ->
  kernel tau1 tau2 (t_peak tau1 tau2) <> 0.
Proof.
  intros H1 H2 Hne. rewrite kernel_at_peak by assumption.
  apply Rmult_integral_contrapositive_currified.
  - pose proof (exp_pos (- t_peak tau1 tau2 / tau2)). lra.
  - intros E. apply Hne.
    apply (Rmult_eq_compat_r tau2) in E.
    replace ((tau1 - tau2) / tau2 * tau2) with (tau1 - tau2) in E by (field; lra).
    lra.
Qed.

(** The kernel relative to its value at [t_peak], [s] after the peak. *)
Lemma kernel_relative (tau1 tau2 s : R) :
  0 < tau1 -> 0 < tau2 -> tau1 <> tau2 ->
  kernel tau1 tau2 (t_peak tau1 tau2 + s)
  = kernel tau1 tau2 (t_peak tau1 tau2)
    * ((tau1 * exp (- s / tau1) - tau2 * exp (- s / tau2)) / (tau1 - tau2)).
Proof.
  intros H1 H2 Hne. rewrite kernel_at_peak by assumption. unfold kernel.
  replace (- (t_peak tau1 tau2 + s) / tau1)
    with (- t_peak tau1 tau2 / tau1 + - s / tau1) by (field; lra).
  replace (- (t_peak tau1 tau2 + s) / tau2)
    with (- t_peak tau1 tau2 / tau2 + - s / tau2) by (field; lra).
  rewrite !exp_plus, peak_ratio by assumption.
  field. split; lra.
Qed.

Lemma relative_kernel_le_1 (tau1 tau2 s : R) :
  0 < tau1 -> 0 < tau2 -> tau1 <> tau2 ->
  (tau1 * exp (- s / tau1) - tau2 * exp (- s / tau2)) / (tau1 - tau2) <= 1.
Proof.
  intros H1 H2 Hne.
  destruct (Rlt_dec tau2 tau1) as [Hlt | Hge].
  - pose proof (weighted_exp_gap tau1 tau2 s H2 Hlt) as H.
    apply Rmult_le_reg_r with (tau1 - tau2); [lra |].
    replace ((tau1 * exp (- s / tau1) - tau2 * exp (- s / tau2))
             / (tau1 - tau2) * (tau1 - tau2))
      with (tau1 * exp (- s / tau1) - tau2 * exp (- s / tau2)) by (field; lra).
    lra.
  - assert (Hlt : tau1 < tau2) by lra.
    pose proof (weighted_exp_gap tau2 tau1 s H1 Hlt) as H.
    apply Rmult_le_reg_r with (tau2 - tau1); [lra |].
    replace ((tau1 * exp (- s / tau1) - tau2 * exp (- s / tau2))
             / (tau1 - tau2) * (tau2 - tau1))
      with (tau2 * exp (- s / tau2) - tau1 * exp (- s / tau1)) by (field; lra).
    lra.
Qed.

(** C5.  For positive time constants the kernel setup fails with
    [DomainError] exactly when [tau1 = tau2]; otherwise it returns a
    normalization [N] for which [N * (e^(-t/tau1) - e^(-t/tau2))] is 1 at
    [t_peak = (tau1 * tau2) / (tau2 - tau1) * ln (tau2 / tau1)], and 1 is its
    peak: the scaled kernel exceeds 1 at no time. *)
Theorem kernel_peak_normalized (tau1 tau2 : R) :
  0 < tau1 -> 0 < tau2 ->
  (normalization tau1 tau2 = inl DomainError <-> tau1 = tau2)
  /\ (tau1 <> tau2 ->
      exists N : R,
        normalization tau1 tau2 = inr N
        /\ N * kernel tau1 tau2 (t_peak tau1 tau2) = 1
        /\ forall t : R, N * kernel tau1 tau2 t <= 1).
Proof.
  intros H1 H2. unfold normalization.
  destruct (Req_dec_T tau1 tau2) as [E | Hne].
  - split; [tauto | contradiction].
  - split; [split; [discriminate | contradiction] |].
    intros _. eexists. split; [reflexivity |].
    fold (kernel tau1 tau2 (t_peak tau1 tau2)).
    pose proof (kernel_at_peak_nonzero tau1 tau2 H1 H2 Hne) as Hk.
    split; [field; exact Hk |].
    intros t.
    replace t with (t_peak tau1 tau2 + (t - t_peak tau1 tau2)) by ring.
    rewrite kernel_relative by assumption.
    set (s := t - t_peak tau1 tau2).
    replace (1 / kernel tau1 tau2 (t_peak tau1 tau2)
             * (kernel tau1 tau2 (t_peak tau1 tau2)
                * ((tau1 * exp (- s / tau1) - tau2 * exp (- s / tau2))
                   / (tau1 - tau2))))
      with ((tau1 * exp (- s / tau1) - tau2 * exp (- s / tau2)) / (tau1 - tau2))
      by (field; split; [lra | exact Hk]).
    now apply relative_kernel_le_1.
Qed.

Lemma kernel_peak_normalized_witness :
  (normalization synchan_tau1 synchan_tau2 = inl DomainError
   <-> synchan_tau1 = synchan_tau2)
  /\ (synchan_tau1 <> synchan_tau2 ->
      exists N : R,
        normalization synchan_tau1 synchan_tau2 = inr N
        /\ N * kernel synchan_tau1 synchan_tau2 (t_peak synchan_tau1 synchan_tau2) = 1
        /\ forall t : R, N * kernel synchan_tau1 synchan_tau2 t <= 1).
Proof.
  apply (kernel_peak_normalized synchan_tau1 synchan_tau2);
    unfold synchan_tau1, synchan_tau2; lra.
Defined.

End SynapticKernel.

Section Prototype.

Lemma Rm_divisor_positive : (0 < 10 * 0.3 * (PI * DIA * DIA))%R.
Proof.
  pose proof PI_RGT_0 as Hpi. unfold DIA. lra.
Qed.

Lemma grows_refl (s : store) : grows s s.
Proof. intros path H. exact H. Qed.

Lemma grows_trans (s1 s2 s3 : store) : grows s1 s2 -> grows s2 s3 -> grows s1 s3.
Proof. intros H12 H23 path H. apply H23, H12, H. Qed.

Lemma wp_mreturn {A : Type} (a : A) (Q : A -> store -> Prop) (s : store) :
  Q a s -> wp (mreturn a) Q s.
Proof. intros H. exists a, s. now split. Qed.

Lemma wp_mthen {A B : Type} (m : moose A) (k : A -> moose B)
  (Q : B -> store -> Prop) (s : store) :
  wp m (fun a s' => wp (k a) Q s') s -> wp (mthen m k) Q s.
Proof.
  intros (a & s' & Hm & b & s'' & Hk & HQ).
  exists b, s''. split; [| exact HQ]. unfold mthen. now rewrite Hm.
Qed.

Lemma wp_create (cls path : string) (Q : string -> store -> Prop) (s : store) :
  (forall s' : store, grows s s' -> has path s' -> Q path s') ->
  wp (create cls path) Q s.
Proof.
  intros HQ. unfold wp, create.
  destruct (elements s !! path) as [e |] eqn:E.
  - exists path, s. split; [reflexivity |]. apply HQ; [apply grows_refl |].
    unfold has. rewrite E. eauto.
  - eexists path, _. split; [reflexivity |]. apply HQ.
    + intros q [e Hq]. unfold has. cbn [elements].
      destruct (decide (path = q)) as [-> | Hne]; [congruence |].
      rewrite lookup_insert_ne by exact Hne. eauto.
    + unfold has. cbn [elements]. rewrite lookup_insert_eq. eauto.
Qed.

Lemma wp_setfield (path field : string) (v : value) (Q : unit -> store -> Prop)
  (s : store) :
  has path s ->
  (forall s' : store, grows s s' -> Q tt s') ->
  wp (setfield path field v) Q s.
Proof.
  intros [e E] HQ. unfold wp, setfield. rewrite E.
  eexists tt, _. split; [reflexivity |]. apply HQ.
  intros q [e' Hq]. unfold has. cbn [elements].
  destruct (decide (path = q)) as [-> | Hne].
  - rewrite lookup_insert_eq. eauto.
  - rewrite lookup_insert_ne by exact Hne. eauto.
Qed.

Lemma wp_connect (a b c d : string) (Q : unit -> store -> Prop) (s : store) :
  (forall s' : store, grows s s' -> Q tt s') ->
  wp (connect a b c d) Q s.
Proof.
  intros HQ. eexists tt, _. split; [reflexivity |]. apply HQ.
  intros q Hq. exact Hq.
Qed.

Lemma wp_moose_element (path : string) (Q : string -> store -> Prop) (s : store) :
  has path s -> Q path s -> wp (moose_element path) Q s.
Proof.
  intros [e E] HQ. exists path, s. split; [| exact HQ].
  unfold moose_element. now rewrite E.
Qed.

Lemma wp_set_power (chan power gate : string) (n : R)
  (Q : unit -> store -> Prop) (s : store) :
  has chan s ->
  (forall s' : store, grows s s' -> has (chan +:+ "/" +:+ gate) s' -> Q tt s') ->
  wp (set_power chan power gate n) Q s.
Proof.
  intros Hc HQ. unfold set_power.
  apply wp_mthen, wp_setfield; [exact Hc |]. intros s1 H1.
  apply wp_mthen, wp_create. intros s2 H2 Hg.
  apply wp_mreturn, HQ; [| exact Hg]. now apply grows_trans with s1.
Qed.

Lemma wp_fillFromExpr (gate : string) (Q : unit -> store -> Prop) (s : store) :
  has gate s ->
  (forall s' : store, grows s s' -> Q tt s') ->
  wp (fillFromExpr gate) Q s.
Proof.
  intros Hg HQ. unfold wp, fillFromExpr.
  destruct Hg as [e E]. rewrite E. cbv zeta.
  apply wp_mthen, wp_setfield; [unfold has; rewrite E; eauto |]. intros s1 H1.
  apply wp_setfield; [apply H1; unfold has; rewrite E; eauto |]. intros s2 H2.
  apply HQ. now apply grows_trans with s1.
Qed.

Lemma wp_moose_exists (path : string) (Q : bool -> store -> Prop) (s : store) :
  Q (bool_decide (has path s)) s -> wp (moose_exists path) Q s.
Proof. intros HQ. eexists _, s. split; [reflexivity | exact HQ]. Qed.

(** Carries what is known to exist over to the grown tree. *)
Ltac advance G :=
  repeat match goal with
         | H : has _ ?s |- _ =>
             lazymatch type of G with
             | grows s _ => apply G in H
             end
         end;
  clear G.

(** Evaluates the concatenations of path strings. *)
Ltac paths :=
  repeat match goal with
         | |- context [String.append ?a ?b] =>
             let r := eval vm_compute in (String.append a b) in
             change (String.append a b) with r
         end.

(** One call of the body, with the facts it needs and the facts it leaves. *)
Ltac forward :=
  cbv beta zeta; cbn [for_each]; paths;
  lazymatch goal with
  | |- wp (mthen _ _) _ _ => apply wp_mthen; forward
  | |- wp (mreturn _) _ _ => apply wp_mreturn
  | |- wp (create _ _) _ _ =>
      let s' := fresh "s" in let G := fresh "G" in let H := fresh "H" in
      apply wp_create; intros s' G H; advance G
  | |- wp (setfield _ _ _) _ _ =>
      let s' := fresh "s" in let G := fresh "G" in
      apply wp_setfield; [assumption | intros s' G; advance G]
  | |- wp (connect _ _ _ _) _ _ =>
      let s' := fresh "s" in let G := fresh "G" in
      apply wp_connect; intros s' G; advance G
  | |- wp (set_power _ _ _ _) _ _ =>
      let s' := fresh "s" in let G := fresh "G" in let H := fresh "H" in
      apply wp_set_power; [assumption | intros s' G H; advance G]
  | |- wp (moose_element _) _ _ => apply wp_moose_element; [assumption |]
  | |- wp (fillFromExpr _) _ _ =>
      let s' := fresh "s" in let G := fresh "G" in
      apply wp_fillFromExpr; [assumption | intros s' G; advance G]
  end.

(** From any tree, [get_hh_proto] returns the path of the prototype, and the
    prototype and the library exist afterwards. *)
Lemma get_hh_proto_returns (s : store) :
  wp get_hh_proto
     (fun r s' => r = "/library/comp" /\ has "/library" s' /\ has "/library/comp" s')
     s.
Proof.
  unfold get_hh_proto. forward. cbv beta zeta. paths.
  apply wp_mthen, wp_moose_exists.
  destruct (bool_decide (has "/library/comp" s0)) eqn:E.
  - apply bool_decide_eq_true in E. forward. auto.
  - repeat forward. auto.
Qed.

(** With the library and the prototype in the tree, a call changes nothing. *)
Lemma get_hh_proto_existing (s : store) :
  has "/library" s -> has "/library/comp" s ->
  get_hh_proto s = Some ("/library/comp", s).
Proof.
  intros [l El] Hc. unfold get_hh_proto, mthen, create. rewrite El.
  paths. unfold moose_exists.
  rewrite bool_decide_eq_true_2 by exact Hc.
  destruct Hc as [c Ec]. unfold moose_element. now rewrite Ec.
Qed.

Lemma calls_existing (n : nat) (s : store) :
  has "/library" s -> has "/library/comp" s ->
  calls n s = Some (replicate n "/library/comp", s).
Proof.
  intros Hl Hc. induction n as [| n IH]; [reflexivity |].
  cbn [calls replicate]. unfold mthen at 1.
  rewrite get_hh_proto_existing by assumption.
  unfold mthen. now rewrite IH.
Qed.

(** With the prototype in the tree, a call touches nothing but the library
    element, which it creates if the tree lacks it. *)
Lemma get_hh_proto_prototype_kept (s s1 : store) (r : string) :
  has "/library/comp" s ->
  get_hh_proto s = Some (r, s1) ->
  messages s1 = messages s
  /\ forall path : string,
       path <> "/library" -> elements s1 !! path = elements s !! path.
Proof.
  intros Hc. unfold get_hh_proto, mthen, create.
  destruct (elements s !! "/library") as [l |] eqn:El; paths.
  - unfold moose_exists. rewrite bool_decide_eq_true_2 by exact Hc.
    destruct Hc as [c Ec]. unfold moose_element. rewrite Ec.
    intros [= _ <-]. now split.
  - unfold moose_exists. rewrite bool_decide_eq_true_2.
    + unfold moose_element. cbn [elements].
      rewrite lookup_insert_ne by discriminate.
      destruct Hc as [c Ec]. rewrite Ec. intros [= _ <-]. cbn [elements messages].
      split; [reflexivity |]. intros path Hne. now rewrite lookup_insert_ne.
    + unfold has. cbn [elements]. now rewrite lookup_insert_ne by discriminate.
Qed.

(** C10.  [get_hh_proto] is idempotent.  From any tree a call returns the
    path of the prototype, [/library/comp].  If the prototype was already
    there, the call has touched no message and no element under the library
    (no field, channel, gate or table of the prototype is set again), and with
    the library there too the tree after the call is the tree before it.
    After a first call, any number of further calls return the same path and
    leave the tree as the first call left it. *)
Theorem get_hh_proto_idempotent (s : store) :
  exists s1 : store,
    get_hh_proto s = Some ("/library/comp", s1)
    /\ (has "/library/comp" s ->
        messages s1 = messages s
        /\ (forall path : string,
              path <> "/library" -> elements s1 !! path = elements s !! path)
        /\ (has "/library" s -> s1 = s))
    /\ get_hh_proto s1 = Some ("/library/comp", s1)
    /\ forall n : nat, calls n s1 = Some (replicate n "/library/comp", s1).
Proof.
  destruct (get_hh_proto_returns s) as (r & s1 & Hcall & -> & Hl & Hc).
  exists s1. split; [exact Hcall |]. split; [| split].
  - intros Hc0.
    destruct (get_hh_proto_prototype_kept s s1 _ Hc0 Hcall) as [Hm He].
    split; [exact Hm |]. split; [exact He |].
    intros Hl0. rewrite get_hh_proto_existing in Hcall by assumption.
    congruence.
  - now apply get_hh_proto_existing.
  - intros n. now apply calls_existing.
Qed.

(** The first call on the empty tree: what it returns, the n gate it leaves
    under the K channel, and the two messages to the compartment. *)
Example get_hh_proto_fresh :
  (r ← get_hh_proto empty_tree;
   n ← elements r.2 !! "/library/comp/K/gateX";
   a ← fields n !! "tableA";
   b ← fields n !! "tableB";
   Some (r.1, class n, field_expr n "alphaExpr", field_expr n "betaExpr",
         field_num n "min", field_num n "max", field_int n "divs",
         table_length a, table_length b, messages r.2))
  = Some ("/library/comp", "HHGate", n_alphaExpr, n_betaExpr,
          gate_min, gate_max, 1000%nat, 1001%nat, 1001%nat,
          [("/library/comp/Na", "channel", "/library/comp", "channel");
           ("/library/comp/K", "channel", "/library/comp", "channel")]).
Proof. vm_compute. reflexivity. Qed.

End Prototype.

(** ** Further properties of the two notebooks *)

Section EquilibriumUnits.

Local Open Scope R_scope.

Lemma truediv_scale (c a b : R) : c <> 0 -> truediv (c * a) (c * b) = truediv a b.
Proof.
  intros Hc. unfold truediv.
  destruct (Req_dec_T b 0) as [-> | Hb].
  - destruct (Req_dec_T (c * 0) 0) as [_ | N]; [reflexivity | exfalso; apply N; ring].
  - destruct (Req_dec_T (c * b) 0) as [E | _].
    + exfalso. apply Rmult_integral in E. tauto.
    + unfold ret. f_equal. field. now split.
Qed.

(** X1.  The unit of the concentrations cancels in [GHK_V]: multiplying all
    six concentrations by one non-zero factor changes nothing, whether the
    call returns a finite value, an infinity, [nan] or raises. *)
Theorem GHK_V_concentration_units
  (c K_in K_out Na_in Na_out Cl_in Cl_out P_K P_Na P_Cl T : R) :
  c <> 0 ->
  GHK_V (c * K_in) (c * K_out) (c * Na_in) (c * Na_out) (c * Cl_in) (c * Cl_out)
        P_K P_Na P_Cl T
  = GHK_V K_in K_out Na_in Na_out Cl_in Cl_out P_K P_Na P_Cl T.
Proof.
  intros Hc. unfold GHK_V. cbv zeta.
  replace (P_K * (c * K_out) + P_Na * (c * Na_out) + P_Cl * (c * Cl_in))
    with (c * (P_K * K_out + P_Na * Na_out + P_Cl * Cl_in)) by ring.
  replace (P_K * (c * K_in) + P_Na * (c * Na_in) + P_Cl * (c * Cl_out))
    with (c * (P_K * K_in + P_Na * Na_in + P_Cl * Cl_out)) by ring.
  now rewrite truediv_scale.
Qed.

Lemma GHK_V_concentration_units_witness :
  GHK_V (1e-3 * 400) (1e-3 * 10) (1e-3 * 50) (1e-3 * 460) (1e-3 * 40) (1e-3 * 540)
        1.0 0.03 0.1 (273.15 + 20)
  = GHK_V 400 10 50 460 40 540 1.0 0.03 0.1 (273.15 + 20).
Proof.
  apply (GHK_V_concentration_units 1e-3). lra.
Defined.

(** X2.  Only the ratios of the permeabilities matter to [GHK_V]:
    multiplying the three permeabilities by one non-zero factor changes
    nothing. *)
Theorem GHK_V_permeability_ratios
  (p K_in K_out Na_in Na_out Cl_in Cl_out P_K P_Na P_Cl T : R) :
  p <> 0 ->
  GHK_V K_in K_out Na_in Na_out Cl_in Cl_out (p * P_K) (p * P_Na) (p * P_Cl) T
  = GHK_V K_in K_out Na_in Na_out Cl_in Cl_out P_K P_Na P_Cl T.
Proof.
  intros Hp. unfold GHK_V. cbv zeta.
  replace (p * P_K * K_out + p * P_Na * Na_out + p * P_Cl * Cl_in)
    with (p * (P_K * K_out + P_Na * Na_out + P_Cl * Cl_in)) by ring.
  replace (p * P_K * K_in + p * P_Na * Na_in + p * P_Cl * Cl_out)
    with (p * (P_K * K_in + P_Na * Na_in + P_Cl * Cl_out)) by ring.
  now rewrite truediv_scale.
Qed.

Lemma GHK_V_permeability_ratios_witness :
  GHK_V 400 10 50 460 40 540 (100 * 1.0) (100 * 0.03) (100 * 0.1) (273.15 + 20)
  = GHK_V 400 10 50 460 40 540 1.0 0.03 0.1 (273.15 + 20).
Proof.
  apply (GHK_V_permeability_ratios 100). lra.
Defined.

(** X3.  The unit of the concentrations cancels in the Nernst expression
    too (the notebook writes 140e-3 and 5e-3 in one cell, 140.0 and 5.0 in
    the next): a common non-zero factor on [Cin] and [Cout] changes nothing,
    the failing cases included. *)
Theorem nernst_concentration_units (c : R) (z : Z) (c_in c_out T : R) :
  c <> 0 ->
  nernst z (c * c_in) (c * c_out) T = nernst z c_in c_out T.
Proof.
  intros Hc. unfold nernst.
  destruct (truediv (- R_gas * T) (IZR z * F)) as [e | k]; [reflexivity |].
  cbn [bind]. now rewrite truediv_scale.
Qed.

Lemma nernst_concentration_units_witness :
  nernst 1 (1e3 * 140e-3) (1e3 * 5e-3) (273.15 + 37)
  = nernst 1 140e-3 5e-3 (273.15 + 37).
Proof.
  apply (nernst_concentration_units 1e3). lra.
Defined.

End EquilibriumUnits.

Section EquilibriumRelations.

Local Open Scope R_scope.

Lemma RT_over_F_pos (T : R) : 0 < T -> 0 < R_gas * T / F.
Proof.
  intros HT. apply Rdiv_lt_0_compat; [| exact F_pos].
  apply Rmult_lt_0_compat; [exact R_gas_pos | exact HT].
Qed.

Lemma ln_swap (a b : R) : 0 < a -> 0 < b -> ln (b / a) = - ln (a / b).
Proof.
  intros Ha Hb. rewrite <- ln_Rinv by now apply Rdiv_lt_0_compat.
  f_equal. field. split; lra.
Qed.

(** The value of the Nernst expression on positive concentrations. *)
Lemma nernst_value (z : Z) (c_in c_out T : R) :
  z <> 0%Z -> 0 < c_in -> 0 < c_out ->
  nernst z c_in c_out T
  = ret (Fin (- R_gas * T / (IZR z * F) * ln (c_in / c_out))).
Proof.
  intros Hz Hin Hout.
  rewrite nernst_unfold by (try assumption; lra).
  now rewrite np_log_pos by (apply Rdiv_lt_0_compat; assumption).
Qed.

(** The value of [GHK_V] where numerator and denominator are positive. *)
Lemma GHK_V_value (K_in K_out Na_in Na_out Cl_in Cl_out P_K P_Na P_Cl T : R) :
  0 < P_K * K_out + P_Na * Na_out + P_Cl * Cl_in ->
  0 < P_K * K_in + P_Na * Na_in + P_Cl * Cl_out ->
  GHK_V K_in K_out Na_in Na_out Cl_in Cl_out P_K P_Na P_Cl T
  = ret (Fin (R_gas * T / F
              * ln ((P_K * K_out + P_Na * Na_out + P_Cl * Cl_in)
                    / (P_K * K_in + P_Na * Na_in + P_Cl * Cl_out)))).
Proof.
  intros Hnum Hden.
  rewrite GHK_V_unfold by lra.
  now rewrite np_log_pos by (apply Rdiv_lt_0_compat; assumption).
Qed.

(** X4.  What [GHK_V] does outside the domain of its formula.  It raises
    exactly when the denominator is zero, and then [ZeroDivisionError]; with a
    negative quotient it returns [nan]; with a zero numerator it returns
    [-inf] at a positive temperature and [nan] at temperature zero. *)
Theorem GHK_V_outcomes (K_in K_out Na_in Na_out Cl_in Cl_out P_K P_Na P_Cl T : R) :
  (raises (GHK_V K_in K_out Na_in Na_out Cl_in Cl_out P_K P_Na P_Cl T)
   <-> P_K * K_in + P_Na * Na_in + P_Cl * Cl_out = 0)
  /\ (P_K * K_in + P_Na * Na_in + P_Cl * Cl_out = 0 ->
      GHK_V K_in K_out Na_in Na_out Cl_in Cl_out P_K P_Na P_Cl T
      = raise ZeroDivisionError)
  /\ (P_K * K_in + P_Na * Na_in + P_Cl * Cl_out <> 0 ->
      (P_K * K_out + P_Na * Na_out + P_Cl * Cl_in)
      / (P_K * K_in + P_Na * Na_in + P_Cl * Cl_out) < 0 ->
      GHK_V K_in K_out Na_in Na_out Cl_in Cl_out P_K P_Na P_Cl T = ret NaN)
  /\ (P_K * K_in + P_Na * Na_in + P_Cl * Cl_out <> 0 ->
      P_K * K_out + P_Na * Na_out + P_Cl * Cl_in = 0 ->
      (0 < T ->
       GHK_V K_in K_out Na_in Na_out Cl_in Cl_out P_K P_Na P_Cl T = ret NInf)
      /\ (T = 0 ->
          GHK_V K_in K_out Na_in Na_out Cl_in Cl_out P_K P_Na P_Cl T = ret NaN)).
Proof.
  set (num := P_K * K_out + P_Na * Na_out + P_Cl * Cl_in).
  set (den := P_K * K_in + P_Na * Na_in + P_Cl * Cl_out).
  assert (Hzero : den = 0 ->
            GHK_V K_in K_out Na_in Na_out Cl_in Cl_out P_K P_Na P_Cl T
            = raise ZeroDivisionError).
  { intros E. unfold GHK_V. cbv zeta. fold den. rewrite E.
    rewrite (truediv_ok (R_gas * T) F) by (pose proof F_pos; lra).
    cbn [bind ret]. now rewrite truediv_zero. }
  split; [| split; [exact Hzero | split]].
  - destruct (Req_dec_T den 0) as [E | N].
    + rewrite (Hzero E). cbn [raises raise]. tauto.
    + unfold den in N. rewrite (GHK_V_unfold _ _ _ _ _ _ _ _ _ _ N).
      cbn [raises ret]. fold den in N. tauto.
  - intros N Hneg. rewrite (GHK_V_unfold _ _ _ _ _ _ _ _ _ _ N).
    fold num den. now rewrite np_log_neg by exact Hneg.
  - intros N E. rewrite (GHK_V_unfold _ _ _ _ _ _ _ _ _ _ N).
    fold num den. rewrite E. replace (0 / den) with 0 by (unfold Rdiv; ring).
    rewrite np_log_zero. cbn [np_mul]. unfold scale_inf. split.
    + intros HT. pose proof (RT_over_F_pos T HT).
      destruct (total_order_T (R_gas * T / F) 0) as [[Hlt | Heq] | Hgt];
        [lra | lra | reflexivity].
    + intros ->. replace (R_gas * 0 / F) with 0 by (unfold Rdiv; ring).
      destruct (total_order_T 0 0) as [[Hlt | Heq] | Hgt]; [lra | reflexivity | lra].
Qed.

(** X5.  With one permeant ion [GHK_V] is the Nernst expression of that
    ion: valence 1 for K+ or Na+ alone, valence -1 for Cl- alone, whatever
    the concentrations of the two impermeant ions. *)
Theorem GHK_V_single_ion (P c_in c_out a1 a2 a3 a4 T : R) :
  P <> 0 -> 0 < c_in -> 0 < c_out ->
  GHK_V c_in c_out a1 a2 a3 a4 P 0 0 T = nernst 1 c_in c_out T
  /\ GHK_V a1 a2 c_in c_out a3 a4 0 P 0 T = nernst 1 c_in c_out T
  /\ GHK_V a1 a2 a3 a4 c_in c_out 0 0 P T = nernst (-1) c_in c_out T.
Proof.
  intros HP Hin Hout.
  assert (Hq : 0 < c_out / c_in) by now apply Rdiv_lt_0_compat.
  assert (Hq' : 0 < c_in / c_out) by now apply Rdiv_lt_0_compat.
  assert (Hpi : P * c_in <> 0) by (apply Rmult_integral_contrapositive_currified; lra).
  assert (Hpo : P * c_out <> 0) by (apply Rmult_integral_contrapositive_currified; lra).
  rewrite !nernst_value by (try assumption; lia).
  repeat split.
  - rewrite GHK_V_unfold by (intros E; apply Hpi; lra).
    replace ((P * c_out + 0 * a2 + 0 * a3) / (P * c_in + 0 * a1 + 0 * a4))
      with (c_out / c_in) by (field; lra).
    rewrite np_log_pos by exact Hq. cbn [np_mul]. do 2 f_equal.
    rewrite ln_swap by assumption. field. pose proof F_pos. lra.
  - rewrite GHK_V_unfold by (intros E; apply Hpi; lra).
    replace ((0 * a2 + P * c_out + 0 * a3) / (0 * a1 + P * c_in + 0 * a4))
      with (c_out / c_in) by (field; lra).
    rewrite np_log_pos by exact Hq. cbn [np_mul]. do 2 f_equal.
    rewrite ln_swap by assumption. field. pose proof F_pos. lra.
  - rewrite GHK_V_unfold by (intros E; apply Hpo; lra).
    replace ((0 * a2 + 0 * a4 + P * c_in) / (0 * a1 + 0 * a3 + P * c_out))
      with (c_in / c_out) by (field; lra).
    rewrite np_log_pos by exact Hq'. cbn [np_mul]. do 2 f_equal.
    field. pose proof F_pos. lra.
Qed.

Lemma GHK_V_single_ion_witness :
  GHK_V 140 5 14 140 4 100 1 0 0 (273.15 + 37) = nernst 1 140 5 (273.15 + 37)
  /\ GHK_V 14 140 140 5 4 100 0 1 0 (273.15 + 37) = nernst 1 140 5 (273.15 + 37)
  /\ GHK_V 14 140 4 100 140 5 0 0 1 (273.15 + 37) = nernst (-1) 140 5 (273.15 + 37).
Proof.
  apply (GHK_V_single_ion 1 140 5 14 140 4 100 (273.15 + 37)); lra.
Defined.

Lemma ln_le_compat (x y : R) : 0 < x -> x <= y -> ln x <= ln y.
Proof.
  intros Hx [Hlt | ->]; [left; now apply ln_increasing | right; reflexivity].
Qed.

Lemma div_le_div (a b c d : R) :
  0 < b -> 0 < d -> a * d <= c * b -> a / b <= c / d.
Proof.
  intros Hb Hd H. apply Rmult_le_reg_r with (b * d); [now apply Rmult_lt_0_compat |].
  replace (a / b * (b * d)) with (a * d) by (field; lra).
  replace (c / d * (b * d)) with (c * b) by (field; lra).
  exact H.
Qed.

(** A mean of three positive ratios [a_i / b_i], weighted by [w_i * b_i], is
    at least one of them and at most one of them. *)
Lemma mediant_bounds (w1 w2 w3 a1 a2 a3 b1 b2 b3 : R) :
  0 <= w1 -> 0 <= w2 -> 0 <= w3 -> 0 < w1 + w2 + w3 ->
  0 < b1 -> 0 < b2 -> 0 < b3 ->
  let num := w1 * a1 + w2 * a2 + w3 * a3 in
  let den := w1 * b1 + w2 * b2 + w3 * b3 in
  (a1 / b1 <= num / den \/ a2 / b2 <= num / den \/ a3 / b3 <= num / den)
  /\ (num / den <= a1 / b1 \/ num / den <= a2 / b2 \/ num / den <= a3 / b3).
Proof.
  intros H1 H2 H3 Hw Hb1 Hb2 Hb3 num den.
  assert (Hden : 0 < den).
  { unfold den.
    pose proof (Rmult_le_pos _ _ H1 (Rlt_le _ _ Hb1)).
    pose proof (Rmult_le_pos _ _ H2 (Rlt_le _ _ Hb2)).
    pose proof (Rmult_le_pos _ _ H3 (Rlt_le _ _ Hb3)).
    destruct (Rle_lt_or_eq_dec _ _ H1) as [P1 | <-];
      [pose proof (Rmult_lt_0_compat _ _ P1 Hb1); lra |].
    destruct (Rle_lt_or_eq_dec _ _ H2) as [P2 | <-];
      [pose proof (Rmult_lt_0_compat _ _ P2 Hb2); lra |].
    assert (P3 : 0 < w3) by lra.
    pose proof (Rmult_lt_0_compat _ _ P3 Hb3). lra. }
  assert (Hsum : w1 * (a1 * den - num * b1) + w2 * (a2 * den - num * b2)
                 + w3 * (a3 * den - num * b3) = 0) by (unfold num, den; ring).
  split.
  - destruct (Rle_dec (a1 * den) (num * b1)) as [L1 | N1];
      [left; now apply div_le_div |].
    destruct (Rle_dec (a2 * den) (num * b2)) as [L2 | N2];
      [right; left; now apply div_le_div |].
    destruct (Rle_dec (a3 * den) (num * b3)) as [L3 | N3];
      [right; right; now apply div_le_div |].
    exfalso.
    assert (D1 : 0 < a1 * den - num * b1) by lra.
    assert (D2 : 0 < a2 * den - num * b2) by lra.
    assert (D3 : 0 < a3 * den - num * b3) by lra.
    pose proof (Rmult_le_pos _ _ H1 (Rlt_le _ _ D1)).
    pose proof (Rmult_le_pos _ _ H2 (Rlt_le _ _ D2)).
    pose proof (Rmult_le_pos _ _ H3 (Rlt_le _ _ D3)).
    destruct (Rle_lt_or_eq_dec _ _ H1) as [P1 | E1];
      [pose proof (Rmult_lt_0_compat _ _ P1 D1); lra |].
    destruct (Rle_lt_or_eq_dec _ _ H2) as [P2 | E2];
      [pose proof (Rmult_lt_0_compat _ _ P2 D2); lra |].
    assert (P3 : 0 < w3) by lra.
    pose proof (Rmult_lt_0_compat _ _ P3 D3). lra.
  - destruct (Rle_dec (num * b1) (a1 * den)) as [L1 | N1];
      [left; now apply div_le_div |].
    destruct (Rle_dec (num * b2) (a2 * den)) as [L2 | N2];
      [right; left; now apply div_le_div |].
    destruct (Rle_dec (num * b3) (a3 * den)) as [L3 | N3];
      [right; right; now apply div_le_div |].
    exfalso.
    assert (D1 : 0 < num * b1 - a1 * den) by lra.
    assert (D2 : 0 < num * b2 - a2 * den) by lra.
    assert (D3 : 0 < num * b3 - a3 * den) by lra.
    pose proof (Rmult_le_pos _ _ H1 (Rlt_le _ _ D1)).
    pose proof (Rmult_le_pos _ _ H2 (Rlt_le _ _ D2)).
    pose proof (Rmult_le_pos _ _ H3 (Rlt_le _ _ D3)).
    destruct (Rle_lt_or_eq_dec _ _ H1) as [P1 | E1];
      [pose proof (Rmult_lt_0_compat _ _ P1 D1); lra |].
    destruct (Rle_lt_or_eq_dec _ _ H2) as [P2 | E2];
      [pose proof (Rmult_lt_0_compat _ _ P2 D2); lra |].
    assert (P3 : 0 < w3) by lra.
    pose proof (Rmult_lt_0_compat _ _ P3 D3). lra.
Qed.

(** X6.  The GHK voltage lies between the Nernst potentials of the three
    ions: for positive concentrations, permeabilities that are not negative
    and not all zero, and a positive temperature, [GHK_V] returns a finite
    value that is at least the smallest and at most the largest of the
    Nernst values of K+, Na+ (valence 1) and Cl- (valence -1). *)
Theorem GHK_V_between_nernst
  (K_in K_out Na_in Na_out Cl_in Cl_out P_K P_Na P_Cl T : R) :
  0 < K_in -> 0 < K_out -> 0 < Na_in -> 0 < Na_out -> 0 < Cl_in -> 0 < Cl_out ->
  0 <= P_K -> 0 <= P_Na -> 0 <= P_Cl -> 0 < P_K + P_Na + P_Cl -> 0 < T ->
  exists v eK eNa eCl : R,
    GHK_V K_in K_out Na_in Na_out Cl_in Cl_out P_K P_Na P_Cl T = ret (Fin v)
    /\ nernst 1 K_in K_out T = ret (Fin eK)
    /\ nernst 1 Na_in Na_out T = ret (Fin eNa)
    /\ nernst (-1) Cl_in Cl_out T = ret (Fin eCl)
    /\ Rmin eK (Rmin eNa eCl) <= v <= Rmax eK (Rmax eNa eCl).
Proof.
  intros HKi HKo HNi HNo HCi HCo HPK HPNa HPCl HP HT.
  pose proof (mediant_bounds P_K P_Na P_Cl K_out Na_out Cl_in K_in Na_in Cl_out
                HPK HPNa HPCl HP HKi HNi HCo) as [Hlow Hhigh].
  cbv zeta in Hlow, Hhigh.
  set (num := P_K * K_out + P_Na * Na_out + P_Cl * Cl_in) in *.
  set (den := P_K * K_in + P_Na * Na_in + P_Cl * Cl_out) in *.
  pose proof (RT_over_F_pos T HT) as Hk.
  assert (HrK : 0 < K_out / K_in) by now apply Rdiv_lt_0_compat.
  assert (HrNa : 0 < Na_out / Na_in) by now apply Rdiv_lt_0_compat.
  assert (HrCl : 0 < Cl_in / Cl_out) by now apply Rdiv_lt_0_compat.
  assert (Hq : 0 < num / den).
  { destruct Hlow as [H | [H | H]]; lra. }
  assert (Hden : den <> 0).
  { intros E. rewrite E in Hq. unfold Rdiv in Hq. rewrite Rinv_0 in Hq. lra. }
  exists (R_gas * T / F * ln (num / den)),
         (R_gas * T / F * ln (K_out / K_in)),
         (R_gas * T / F * ln (Na_out / Na_in)),
         (R_gas * T / F * ln (Cl_in / Cl_out)).
  split; [| split; [| split; [| split]]].
  - unfold num, den in Hden. rewrite (GHK_V_unfold _ _ _ _ _ _ _ _ _ _ Hden).
    fold num den. now rewrite np_log_pos by exact Hq.
  - rewrite nernst_value by (try assumption; lia). do 2 f_equal.
    rewrite (ln_swap K_in K_out) by assumption. field. pose proof F_pos. lra.
  - rewrite nernst_value by (try assumption; lia). do 2 f_equal.
    rewrite (ln_swap Na_in Na_out) by assumption. field. pose proof F_pos. lra.
  - rewrite nernst_value by (try assumption; lia). do 2 f_equal.
    field. pose proof F_pos. lra.
  - split.
    + destruct Hlow as [H | [H | H]]; apply ln_le_compat in H; try assumption.
      * eapply Rle_trans; [apply Rmin_l |]. now apply Rmult_le_compat_l; [lra |].
      * eapply Rle_trans; [apply Rmin_r |]. eapply Rle_trans; [apply Rmin_l |].
        now apply Rmult_le_compat_l; [lra |].
      * eapply Rle_trans; [apply Rmin_r |]. eapply Rle_trans; [apply Rmin_r |].
        now apply Rmult_le_compat_l; [lra |].
    + destruct Hhigh as [H | [H | H]]; apply ln_le_compat in H; try assumption.
      * eapply Rle_trans; [| apply Rmax_l]. now apply Rmult_le_compat_l; [lra |].
      * eapply Rle_trans; [| apply Rmax_r]. eapply Rle_trans; [| apply Rmax_l].
        now apply Rmult_le_compat_l; [lra |].
      * eapply Rle_trans; [| apply Rmax_r]. eapply Rle_trans; [| apply Rmax_r].
        now apply Rmult_le_compat_l; [lra |].
Qed.

Lemma GHK_V_between_nernst_witness :
  exists v eK eNa eCl : R,
    GHK_V 400 10 50 460 40 540 1.0 0.03 0.1 (273.15 + 20) = ret (Fin v)
    /\ nernst 1 400 10 (273.15 + 20) = ret (Fin eK)
    /\ nernst 1 50 460 (273.15 + 20) = ret (Fin eNa)
    /\ nernst (-1) 40 540 (273.15 + 20) = ret (Fin eCl)
    /\ Rmin eK (Rmin eNa eCl) <= v <= Rmax eK (Rmax eNa eCl).
Proof.
  apply (GHK_V_between_nernst 400 10 50 460 40 540 1.0 0.03 0.1 (273.15 + 20)); lra.
Defined.

(** X7.  Exchanging inside and outside negates the Nernst value, and so does
    changing the sign of the valence. *)
Theorem nernst_antisymmetric (z : Z) (c_in c_out T : R) :
  z <> 0%Z -> 0 < c_in -> 0 < c_out ->
  exists v : R,
    nernst z c_in c_out T = ret (Fin v)
    /\ nernst z c_out c_in T = ret (Fin (- v))
    /\ nernst (- z) c_in c_out T = ret (Fin (- v)).
Proof.
  intros Hz Hin Hout.
  assert (HzF : IZR z * F <> 0) by now apply zF_nonzero.
  eexists. split; [now apply nernst_value |]. split.
  - rewrite nernst_value by assumption. do 2 f_equal.
    rewrite (ln_swap c_in c_out) by assumption. ring.
  - rewrite nernst_value by (try assumption; lia). do 2 f_equal.
    rewrite opp_IZR. field.
    split; [pose proof F_pos; lra |].
    intros E. apply HzF. rewrite E. ring.
Qed.

Lemma nernst_antisymmetric_witness :
  exists v : R,
    nernst 1 140 5 (273.15 + 37) = ret (Fin v)
    /\ nernst 1 5 140 (273.15 + 37) = ret (Fin (- v))
    /\ nernst (- 1) 140 5 (273.15 + 37) = ret (Fin (- v)).
Proof.
  apply (nernst_antisymmetric 1 140 5 (273.15 + 37)); [lia | lra | lra].
Defined.

(** X8.  The sign of the Nernst value at a positive temperature: negative
    for a cation that is more concentrated inside (K+), positive for one
    more concentrated outside (Na+), and the other way round for an anion. *)
Theorem nernst_sign (z : Z) (c_in c_out T : R) :
  z <> 0%Z -> 0 < c_in -> 0 < c_out -> 0 < T ->
  exists v : R,
    nernst z c_in c_out T = ret (Fin v)
    /\ ((0 < z)%Z -> c_out < c_in -> v < 0)
    /\ ((0 < z)%Z -> c_in < c_out -> 0 < v)
    /\ ((z < 0)%Z -> c_out < c_in -> 0 < v)
    /\ ((z < 0)%Z -> c_in < c_out -> v < 0).
Proof.
  intros Hz Hin Hout HT.
  eexists. split; [now apply nernst_value |].
  set (L := ln (c_in / c_out)).
  pose proof (RT_over_F_pos T HT) as Hk.
  pose proof F_pos as HF.
  assert (Hmore : c_out < c_in -> 0 < L).
  { intros H. unfold L. rewrite <- ln_1. apply ln_increasing; [lra |].
    apply Rmult_lt_reg_r with c_out; [exact Hout |].
    replace (c_in / c_out * c_out) with c_in by (field; lra). lra. }
  assert (Hless : c_in < c_out -> L < 0).
  { intros H. unfold L. rewrite <- ln_1.
    apply ln_increasing; [now apply Rdiv_lt_0_compat |].
    apply Rmult_lt_reg_r with c_out; [exact Hout |].
    replace (c_in / c_out * c_out) with c_in by (field; lra). lra. }
  assert (Hv : forall zr : R, zr <> 0 ->
            - R_gas * T / (zr * F) * L = - (R_gas * T / F * L) / zr).
  { intros zr Hzr. field. split; [pose proof F_pos; lra | exact Hzr]. }
  assert (Hzr : IZR z <> 0) by (intros E; apply Hz; now apply eq_IZR_R0).
  rewrite (Hv (IZR z) Hzr).
  repeat split; intros Hs Hc.
  - apply IZR_lt in Hs. specialize (Hmore Hc).
    assert (0 < R_gas * T / F * L) by now apply Rmult_lt_0_compat.
    assert (0 < R_gas * T / F * L / IZR z) by now apply Rdiv_lt_0_compat.
    unfold Rdiv in *. lra.
  - apply IZR_lt in Hs. specialize (Hless Hc).
    assert (0 < R_gas * T / F * (- L)) by (apply Rmult_lt_0_compat; lra).
    assert (0 < R_gas * T / F * (- L) / IZR z) by now apply Rdiv_lt_0_compat.
    unfold Rdiv in *. lra.
  - apply IZR_lt in Hs. specialize (Hmore Hc).
    assert (0 < R_gas * T / F * L) by now apply Rmult_lt_0_compat.
    assert (0 < R_gas * T / F * L / (- IZR z))
      by (apply Rdiv_lt_0_compat; [assumption | lra]).
    replace (- (R_gas * T / F * L) / IZR z)
      with (R_gas * T / F * L / (- IZR z)) by (field; repeat split; lra).
    assumption.
  - apply IZR_lt in Hs. specialize (Hless Hc).
    assert (0 < R_gas * T / F * (- L)) by (apply Rmult_lt_0_compat; lra).
    assert (0 < R_gas * T / F * (- L) / (- IZR z))
      by (apply Rdiv_lt_0_compat; [assumption | lra]).
    replace (- (R_gas * T / F * L) / IZR z)
      with (- (R_gas * T / F * (- L) / (- IZR z))) by (field; repeat split; lra).
    lra.
Qed.

Lemma nernst_sign_witness :
  exists v : R,
    nernst 1 140 5 (273.15 + 37) = ret (Fin v)
    /\ ((0 < 1)%Z -> 5 < 140 -> v < 0)
    /\ ((0 < 1)%Z -> 140 < 5 -> 0 < v)
    /\ ((1 < 0)%Z -> 5 < 140 -> 0 < v)
    /\ ((1 < 0)%Z -> 140 < 5 -> v < 0).
Proof.
  apply (nernst_sign 1 140 5 (273.15 + 37)); [lia | lra | lra | lra].
Defined.

(** X9.  Exchanging inside and outside for all three ions negates the GHK
    voltage, where numerator and denominator are positive. *)
Theorem GHK_V_antisymmetric
  (K_in K_out Na_in Na_out Cl_in Cl_out P_K P_Na P_Cl T : R) :
  0 < P_K * K_out + P_Na * Na_out + P_Cl * Cl_in ->
  0 < P_K * K_in + P_Na * Na_in + P_Cl * Cl_out ->
  exists v : R,
    GHK_V K_in K_out Na_in Na_out Cl_in Cl_out P_K P_Na P_Cl T = ret (Fin v)
    /\ GHK_V K_out K_in Na_out Na_in Cl_out Cl_in P_K P_Na P_Cl T
       = ret (Fin (- v)).
Proof.
  intros Hnum Hden.
  eexists. split; [now apply GHK_V_value |].
  rewrite GHK_V_value by assumption. do 2 f_equal.
  rewrite (ln_swap (P_K * K_out + P_Na * Na_out + P_Cl * Cl_in)
                   (P_K * K_in + P_Na * Na_in + P_Cl * Cl_out)) by assumption.
  ring.
Qed.

Lemma GHK_V_antisymmetric_witness :
  exists v : R,
    GHK_V 400 10 50 460 40 540 1.0 0.03 0.1 (273.15 + 20) = ret (Fin v)
    /\ GHK_V 10 400 460 50 540 40 1.0 0.03 0.1 (273.15 + 20) = ret (Fin (- v)).
Proof.
  apply (GHK_V_antisymmetric 400 10 50 460 40 540 1.0 0.03 0.1 (273.15 + 20)); lra.
Defined.

End EquilibriumRelations.

Section GateRates.

Local Open Scope R_scope.

Lemma exp_minus_1_sign (x : R) :
  (0 < x -> 0 < exp x - 1) /\ (x < 0 -> exp x - 1 < 0).
Proof.
  split; intros H.
  - pose proof (exp_increasing 0 x H) as E. rewrite exp_0 in E. lra.
  - pose proof (exp_increasing x 0 H) as E. rewrite exp_0 in E. lra.
Qed.

Lemma singular_rate_pos (c y : R) :
  0 < c -> y <> 0 -> 0 < 1e3 * c * y / (exp (y / 10) - 1).
Proof.
  intros Hc Hy. destruct (exp_minus_1_sign (y / 10)) as [Hp Hn].
  destruct (Rdichotomy _ _ Hy) as [Hneg | Hpos].
  - assert (Hd : exp (y / 10) - 1 < 0) by (apply Hn; lra).
    replace (1e3 * c * y / (exp (y / 10) - 1))
      with (1e3 * c * (- y) / (- (exp (y / 10) - 1))) by (field; lra).
    apply Rdiv_lt_0_compat; [| lra].
    apply Rmult_lt_0_compat; [| lra]. apply Rmult_lt_0_compat; lra.
  - assert (Hd : 0 < exp (y / 10) - 1) by (apply Hp; lra).
    apply Rdiv_lt_0_compat; [| exact Hd].
    apply Rmult_lt_0_compat; [| lra]. apply Rmult_lt_0_compat; lra.
Qed.

Lemma exp_rate_pos (c x : R) : 0 < c -> 0 < 1e3 * c * exp x.
Proof.
  intros Hc. pose proof (exp_pos x).
  apply Rmult_lt_0_compat; [| assumption]. apply Rmult_lt_0_compat; lra.
Qed.

(** Where a rate expression has a value, the value is positive. *)
Lemma rate_pos (e : expr) (v r : R) :
  In e [m_alphaExpr; m_betaExpr; h_alphaExpr; h_betaExpr; n_alphaExpr; n_betaExpr] ->
  eval e v = Some r -> 0 < r.
Proof.
  intros [<- | [<- | [<- | [<- | [<- | [<- | []]]]]]].
  - unfold m_alphaExpr. rewrite eval_singular_rate. cbv zeta.
    destruct (Req_dec_T (25 - 1e3 * (v - EREST_ACT)) 0) as [E | N]; [discriminate |].
    intros [= <-]. apply singular_rate_pos; [lra | exact N].
  - unfold m_betaExpr. rewrite eval_exp_rate by lra. intros [= <-].
    apply exp_rate_pos. lra.
  - unfold h_alphaExpr. rewrite eval_exp_rate by lra. intros [= <-].
    apply exp_rate_pos. lra.
  - rewrite eval_h_beta. intros [= <-].
    pose proof (exp_pos ((30 - 1e3 * (v - EREST_ACT)) / 10)).
    apply Rdiv_lt_0_compat; lra.
  - unfold n_alphaExpr. rewrite eval_singular_rate. cbv zeta.
    destruct (Req_dec_T (10 - 1e3 * (v - EREST_ACT)) 0) as [E | N]; [discriminate |].
    intros [= <-]. apply singular_rate_pos; [lra | exact N].
  - unfold n_betaExpr. rewrite eval_exp_rate by lra. intros [= <-].
    apply exp_rate_pos. lra.
Qed.

(** X10.  The opening and closing rates of the three gates are positive at
    every voltage where their expressions have a value, so the time constant
    [1 / (alpha + beta)] is positive and the steady state
    [alpha / (alpha + beta)] lies strictly between 0 and 1. *)
Theorem gate_rates_positive :
  List.Forall
    (fun ab : expr * expr =>
       forall v ra rb : R,
         eval (fst ab) v = Some ra -> eval (snd ab) v = Some rb ->
         0 < ra /\ 0 < rb /\ 0 < 1 / (ra + rb) /\ 0 < ra / (ra + rb) < 1)
    [(m_alphaExpr, m_betaExpr); (h_alphaExpr, h_betaExpr); (n_alphaExpr, n_betaExpr)].
Proof.
  assert (Hpair : forall a b v ra rb,
            In a [m_alphaExpr; m_betaExpr; h_alphaExpr; h_betaExpr; n_alphaExpr; n_betaExpr] ->
            In b [m_alphaExpr; m_betaExpr; h_alphaExpr; h_betaExpr; n_alphaExpr; n_betaExpr] ->
            eval a v = Some ra -> eval b v = Some rb ->
            0 < ra /\ 0 < rb /\ 0 < 1 / (ra + rb) /\ 0 < ra / (ra + rb) < 1).
  { intros a b v ra rb Ia Ib Ea Eb.
    pose proof (rate_pos a v ra Ia Ea) as Ha.
    pose proof (rate_pos b v rb Ib Eb) as Hb.
    assert (Hs : 0 < ra + rb) by lra.
    split; [exact Ha |]. split; [exact Hb |].
    split; [apply Rdiv_lt_0_compat; lra |].
    split; [now apply Rdiv_lt_0_compat |].
    apply Rmult_lt_reg_r with (ra + rb); [exact Hs |].
    replace (ra / (ra + rb) * (ra + rb)) with ra by (field; lra). lra. }
  apply List.Forall_cons; [| apply List.Forall_cons; [| apply List.Forall_cons;
    [| apply List.Forall_nil]]];
    cbn [fst snd]; intros v ra rb; apply Hpair; cbn [In]; tauto.
Qed.

(** X11.  [alpha_m] has no value at exactly one voltage, [EREST_ACT + 25 mV],
    and [alpha_n] at exactly one, [EREST_ACT + 10 mV]; the other four rate
    expressions have a value at every voltage. *)
Theorem rate_singularities :
  (forall v : R, eval m_alphaExpr v = None <-> v = EREST_ACT + 25e-3)
  /\ (forall v : R, eval n_alphaExpr v = None <-> v = EREST_ACT + 10e-3)
  /\ (forall v : R,
        is_Some (eval m_betaExpr v) /\ is_Some (eval h_alphaExpr v)
        /\ is_Some (eval h_betaExpr v) /\ is_Some (eval n_betaExpr v)).
Proof.
  split; [| split].
  - intros v. unfold m_alphaExpr. rewrite eval_singular_rate. cbv zeta.
    destruct (Req_dec_T (25 - 1e3 * (v - EREST_ACT)) 0) as [E | N].
    + split; [intros _; lra | reflexivity].
    + split; [discriminate | intros ->; exfalso; apply N; lra].
  - intros v. unfold n_alphaExpr. rewrite eval_singular_rate. cbv zeta.
    destruct (Req_dec_T (10 - 1e3 * (v - EREST_ACT)) 0) as [E | N].
    + split; [intros _; lra | reflexivity].
    + split; [discriminate | intros ->; exfalso; apply N; lra].
  - intros v. unfold m_betaExpr, h_alphaExpr, n_betaExpr.
    rewrite !eval_exp_rate by lra. rewrite eval_h_beta. repeat split; eauto.
Qed.





End GateRates.

Section PrototypeContents.


Lemma field_is_has (p f : string) (v : value) (s : store) :
  field_is p f v s -> has p s.
Proof. intros (e & E & _). unfold has. rewrite E. eauto. Qed.













(** X15.  The existence check of [get_hh_proto] looks at the path only: an
    element that already sits at [/library/comp] is returned as it is,
    whatever its class and content, and nothing that is missing under it is
    created, so that [moose.element] still raises for a path that was not
    there. *)
Theorem get_hh_proto_reuses_existing (s : store) :
  has "/library/comp" s ->
  exists s1 : store,
    get_hh_proto s = Some ("/library/comp", s1)
    /\ elements s1 !! "/library/comp" = elements s !! "/library/comp"
    /\ forall p : string,
         p <> "/library" -> ~ has p s -> moose_element p s1 = None.
Proof.
  intros Hc.
  destruct (get_hh_proto_returns s) as (r & s1 & Hcall & -> & _ & _).
  destruct (get_hh_proto_prototype_kept s s1 _ Hc Hcall) as [_ He].
  exists s1. split; [exact Hcall |]. split; [now apply He |].
  intros p Hp Hno. unfold moose_element. rewrite (He p Hp).
  destruct (elements s !! p) as [e |] eqn:E; [| reflexivity].
  exfalso. apply Hno. unfold has. rewrite E. eauto.
Qed.

Lemma get_hh_proto_reuses_existing_witness :
  exists s1 : store,
    get_hh_proto stale_tree = Some ("/library/comp", s1)
    /\ elements s1 !! "/library/comp" = elements stale_tree !! "/library/comp"
    /\ forall p : string,
         p <> "/library" -> ~ has p stale_tree -> moose_element p s1 = None.
Proof.
  apply (get_hh_proto_reuses_existing stale_tree).
  exists {| class := "Neutral"; fields := ∅ |}. reflexivity.
Defined.

End PrototypeContents.
